(** * ninja-build-gen: a model of the builders and of their serialization

    The development follows [ninja-build-gen.ts]: the escaper, the three
    child builders (assignment, edge, rule) and the top-level [NinjaBuilder].
    Strings are sequences of character units; the only characters the code
    inspects ([' '], [':'], ['$']) are ASCII.  A stream is "something that
    accepts sequential string writes": it is modelled by the list of the
    chunks written so far, in the order of the [write] calls. *)

From Stdlib Require Import String Ascii List NArith ZArith Bool Lia.
From Stdlib Require Import Sorted Permutation DecimalString DecimalN.
Import ListNotations.
Local Open Scope string_scope.

(** ** JavaScript built-ins used by the source *)

(** The line feed written as ['\n'] in the source. *)
Definition LF : string := String (ascii_of_nat 10) EmptyString.

(** [Array.prototype.join] on an array of strings. *)
Fixpoint Array_join (sep : string) (a : list string) : string :=
  match a with
  | [] => ""
  | [x] => x
  | x :: rest => x ++ sep ++ Array_join sep rest
  end.

(** [String.prototype.replace] with a global regular expression that is a
    single character class, and a replacer function: the subject is scanned
    left to right, every character of the class is one match, and each match
    is replaced by the replacer's result. *)
Definition in_class (cls : list ascii) (c : ascii) : bool :=
  existsb (Ascii.eqb c) cls.

Fixpoint String_replace_class_g
    (cls : list ascii) (replacer : string -> string) (s : string) : string :=
  match s with
  | EmptyString => EmptyString
  | String c rest =>
      (if in_class cls c then replacer (String c EmptyString)
       else String c EmptyString)
      ++ String_replace_class_g cls replacer rest
  end.

(** Printing of an integer in decimal, as [Number.prototype.toString] does for
    the integers a build script writes ([42] prints as ["42"]).  It is used to
    instantiate the number type in the concrete examples only. *)
Definition decimal (z : Z) : string := NilZero.string_of_int (Z.to_int z).

(** *** Ordinary objects used as maps

    An object's own string-keyed properties, in creation order.  Assigning to
    an existing key replaces the value in place (the property keeps its
    position); assigning to a new key creates the property at the end. *)
Definition JSObject (V : Type) : Type := list (string * V).

Fixpoint obj_define {V} (k : string) (v : V) (o : JSObject V) : JSObject V :=
  match o with
  | [] => [(k, v)]
  | (k', v') :: o' =>
      if String.eqb k' k then (k', v) :: o' else (k', v') :: obj_define k v o'
  end.

Fixpoint obj_get {V} (k : string) (o : JSObject V) : option V :=
  match o with
  | [] => None
  | (k', v') :: o' => if String.eqb k' k then Some v' else obj_get k o'
  end.

(** [o[k] = v] on an object created by the literal [{}], for a value [v] that
    is a string or a number.  The prototype of such an object is
    [Object.prototype], whose only accessor property is [__proto__]: the
    assignment then runs the inherited setter, which ignores a value that is
    neither an object nor [null], and no own property is created.  Every other
    key defines or overwrites an own data property. *)
Definition obj_assign {V} (k : string) (v : V) (o : JSObject V) : JSObject V :=
  if String.eqb k "__proto__" then o else obj_define k v o.

(** Array indices: a property key is an array index when it is the canonical
    decimal spelling of an integer [i] with [0 <= i < 2^32 - 1], that is, a
    string of decimal digits that is its own normal form (not empty, no
    leading zero except for ["0"] itself) and whose value is in that range. *)
Definition array_index (k : string) : option N :=
  match NilEmpty.uint_of_string k with
  | Some d =>
      if Decimal.uint_eq_dec (Decimal.unorm d) d then
        if (N.of_uint d <? 2 ^ 32 - 1)%N then Some (N.of_uint d) else None
      else None
  | None => None
  end.

Definition is_index (k : string) : bool :=
  match array_index k with Some _ => true | None => false end.

Definition index_value (k : string) : N :=
  match array_index k with Some n => n | None => 0%N end.

(** Insertion of an entry among entries already in ascending index order. *)
Fixpoint insert_by_index {V} (kv : string * V) (l : list (string * V))
  : list (string * V) :=
  match l with
  | [] => [kv]
  | kv' :: l' =>
      if (index_value (fst kv) <=? index_value (fst kv'))%N
      then kv :: kv' :: l'
      else kv' :: insert_by_index kv l'
  end.

Definition sort_by_index {V} (l : list (string * V)) : list (string * V) :=
  fold_right insert_by_index [] l.

(** [Object.entries]: the own enumerable string-keyed properties in the order
    of [OrdinaryOwnPropertyKeys], that is, the array indices in ascending
    numeric order, then the other keys in creation order. *)
Definition Object_entries {V} (o : JSObject V) : list (string * V) :=
  (sort_by_index (filter (fun kv => is_index (fst kv)) o)
   ++ filter (fun kv => negb (is_index (fst kv))) o)%list.

(** ** Streams and methods *)

Definition Stream : Type := list string.

(** The text a stream has received. *)
Definition contents (stream : Stream) : string := String.concat "" stream.

(** A method of a class whose instances have state [T], called with a stream:
    it returns a result, the receiver's state after the call and the stream
    after the call. *)
Definition method (T A : Type) : Type := T -> Stream -> A * T * Stream.

Definition ret {T A} (a : A) : method T A :=
  fun this stream => (a, this, stream).

Definition bind {T A B} (m : method T A) (k : A -> method T B) : method T B :=
  fun this stream =>
    let '(a, this', stream') := m this stream in k a this' stream'.

Declare Scope method_scope.
Delimit Scope method_scope with method.
Notation "x <- m ;; k" := (bind m (fun x => k))
  (at level 61, m at next level, right associativity) : method_scope.
Notation "m ;; k" := (bind m (fun _ => k))
  (at level 61, right associativity) : method_scope.

(** Reading a field of [this]. *)
Definition field {T A} (f : T -> A) : method T A :=
  fun this stream => (f this, this, stream).

(** [stream.write(s)]. *)
Definition stream_write {T} (s : string) : method T unit :=
  fun this stream => (tt, this, (stream ++ [s])%list).

(** [if (c) { body }] with no [else]. *)
Definition when {T} (c : bool) (body : method T unit) : method T unit :=
  if c then body else ret tt.

(** [if (x !== undefined) { body x }] and [if (x != null) { body x }] on an
    optional field, which is never [null] here. *)
Definition when_defined {T A} (x : option A) (body : A -> method T unit)
  : method T unit :=
  match x with Some a => body a | None => ret tt end.

Fixpoint list_update {C} (i : nat) (c : C) (l : list C) : list C :=
  match l, i with
  | [], _ => []
  | _ :: l', O => c :: l'
  | x :: l', S i' => x :: list_update i' c l'
  end.

(** [for (const child of this.arr) { child.body(stream) }]: the array iterator
    reads [this.arr[i]] for [i = 0, 1, ...] until the index reaches the length;
    the child is an object owned by [this], so what the call does to the child
    is stored back at its index.  The fuel is the length of the array when the
    loop starts, which the loop bodies of this program never change. *)
Fixpoint for_of_from {T C} (arr : T -> list C) (set_arr : list C -> T -> T)
    (body : method C unit) (fuel i : nat) : method T unit :=
  match fuel with
  | O => ret tt
  | S fuel' =>
      fun this stream =>
        match nth_error (arr this) i with
        | None => (tt, this, stream)
        | Some child =>
            let '(_, child', stream') := body child stream in
            for_of_from arr set_arr body fuel' (S i)
              (set_arr (list_update i child' (arr this)) this) stream'
        end
  end.

Definition for_of {T C} (arr : T -> list C) (set_arr : list C -> T -> T)
    (body : method C unit) : method T unit :=
  fun this stream =>
    for_of_from arr set_arr body (length (arr this)) 0 this stream.

(** [for (const x of l) { body x }] over a freshly built array of values. *)
Fixpoint for_each {T A} (l : list A) (body : A -> method T unit)
  : method T unit :=
  match l with
  | [] => ret tt
  | a :: l' => (body a ;; for_each l' body)%method
  end.

(** The stream and the receiver after a call. *)
Definition stream_after {T A} (r : A * T * Stream) : Stream := snd r.
Definition this_after {T A} (r : A * T * Stream) : T := snd (fst r).

(** The text a method writes when called on [this] with an empty stream. *)
Definition rendered {T} (m : method T unit) (this : T) : string :=
  contents (stream_after (m this [])).

(** ** Escaper *)

(** [s.replace(/[ :$]/g, (match) => '$' + match)] *)
Definition escape (s : string) : string :=
  String_replace_class_g [" "; ":"; "$"]%char (fun m => "$" ++ m) s.

(** The contract in the specification's words: each space, colon or dollar
    sign becomes a dollar sign followed by itself, every other character is
    kept. *)
Definition escape_char_spec (c : ascii) : list ascii :=
  if (Ascii.eqb c " " || Ascii.eqb c ":" || Ascii.eqb c "$")%bool
  then ["$"%char; c] else [c].

Definition escape_spec (s : string) : string :=
  string_of_list_ascii (flat_map escape_char_spec (list_ascii_of_string s)).

(** An argument of type [string | Array<string>]. *)
Inductive string_or_array : Type :=
| One (s : string)
| Many (a : list string).

Section Builders.

(** The source's [number] is kept abstract: the builders only ever print a
    number, in a template literal or as a property key, and both go through
    the same conversion to a string. *)
Variable Number : Type.
Variable Number_toString : Number -> string.

(** A value of type [string | number]. *)
Inductive string_or_number : Type :=
| Str (s : string)
| Num (n : Number).

(** What [`${x}`] and the property key [o[x]] make of it. *)
Definition to_text (x : string_or_number) : string :=
  match x with
  | Str s => s
  | Num n => Number_toString n
  end.

(** ** NinjaAssignBuilder *)

Record NinjaAssignBuilder : Type := new_NinjaAssignBuilder {
  assign_name : string_or_number;
  assign_value : string_or_number
}.

Definition NinjaAssignBuilder_write : method NinjaAssignBuilder unit :=
  (name <- field assign_name ;;
   value <- field assign_value ;;
   stream_write (to_text name ++ " = " ++ to_text value ++ LF))%method.

(** ** NinjaEdgeBuilder *)

Record NinjaEdgeBuilder : Type := {
  edge_targets : list string;
  edge_assigns : JSObject string_or_number;
  edge_rule : string;
  edge_sources : option (list string);
  edge_dependencies : option (list string);
  edge_orderDeps : option (list string);
  edge_pool : option string
}.

(** The constructor: a single string is wrapped, an array is stored as it is
    (the caller keeps a reference to it; no method of the library writes to
    it). *)
Definition new_NinjaEdgeBuilder (targets : string_or_array)
  : NinjaEdgeBuilder :=
  {| edge_targets := match targets with One s => [s] | Many a => a end;
     edge_assigns := [];
     edge_rule := "phony";
     edge_sources := None;
     edge_dependencies := None;
     edge_orderDeps := None;
     edge_pool := None |}.

(** [acc ??= []] followed by [acc.push(x)] or [acc.push(...xs)]. *)
Definition push_onto (acc : option (list string)) (x : string_or_array)
  : option (list string) :=
  let acc' := match acc with Some a => a | None => [] end in
  match x with
  | One s => Some (acc' ++ [s])%list
  | Many a => Some (acc' ++ a)%list
  end.

Definition NinjaEdgeBuilder_using (rule : string) (this : NinjaEdgeBuilder)
  : NinjaEdgeBuilder :=
  {| edge_targets := edge_targets this;
     edge_assigns := edge_assigns this;
     edge_rule := rule;
     edge_sources := edge_sources this;
     edge_dependencies := edge_dependencies this;
     edge_orderDeps := edge_orderDeps this;
     edge_pool := edge_pool this |}.

Definition NinjaEdgeBuilder_from (sources : string_or_array)
    (this : NinjaEdgeBuilder) : NinjaEdgeBuilder :=
  {| edge_targets := edge_targets this;
     edge_assigns := edge_assigns this;
     edge_rule := edge_rule this;
     edge_sources := push_onto (edge_sources this) sources;
     edge_dependencies := edge_dependencies this;
     edge_orderDeps := edge_orderDeps this;
     edge_pool := edge_pool this |}.

Definition NinjaEdgeBuilder_need (dependencies : string_or_array)
    (this : NinjaEdgeBuilder) : NinjaEdgeBuilder :=
  {| edge_targets := edge_targets this;
     edge_assigns := edge_assigns this;
     edge_rule := edge_rule this;
     edge_sources := edge_sources this;
     edge_dependencies := push_onto (edge_dependencies this) dependencies;
     edge_orderDeps := edge_orderDeps this;
     edge_pool := edge_pool this |}.

Definition NinjaEdgeBuilder_after (orderDeps : string_or_array)
    (this : NinjaEdgeBuilder) : NinjaEdgeBuilder :=
  {| edge_targets := edge_targets this;
     edge_assigns := edge_assigns this;
     edge_rule := edge_rule this;
     edge_sources := edge_sources this;
     edge_dependencies := edge_dependencies this;
     edge_orderDeps := push_onto (edge_orderDeps this) orderDeps;
     edge_pool := edge_pool this |}.

(** [this.assigns[name] = value]: the key is the text of [name]. *)
Definition NinjaEdgeBuilder_assign (name value : string_or_number)
    (this : NinjaEdgeBuilder) : NinjaEdgeBuilder :=
  {| edge_targets := edge_targets this;
     edge_assigns := obj_assign (to_text name) value (edge_assigns this);
     edge_rule := edge_rule this;
     edge_sources := edge_sources this;
     edge_dependencies := edge_dependencies this;
     edge_orderDeps := edge_orderDeps this;
     edge_pool := edge_pool this |}.

Definition NinjaEdgeBuilder_pool (pool : string) (this : NinjaEdgeBuilder)
  : NinjaEdgeBuilder :=
  {| edge_targets := edge_targets this;
     edge_assigns := edge_assigns this;
     edge_rule := edge_rule this;
     edge_sources := edge_sources this;
     edge_dependencies := edge_dependencies this;
     edge_orderDeps := edge_orderDeps this;
     edge_pool := Some pool |}.

Definition NinjaEdgeBuilder_write : method NinjaEdgeBuilder unit :=
  (targets <- field edge_targets ;;
   rule <- field edge_rule ;;
   stream_write ("build " ++ Array_join " " targets ++ ": " ++ rule) ;;
   sources <- field edge_sources ;;
   when_defined sources
     (fun a => stream_write (" " ++ Array_join " " a)) ;;
   dependencies <- field edge_dependencies ;;
   when_defined dependencies
     (fun a => stream_write (" | " ++ Array_join " " a)) ;;
   orderDeps <- field edge_orderDeps ;;
   when_defined orderDeps
     (fun a => stream_write (" || " ++ Array_join " " a)) ;;
   assigns <- field edge_assigns ;;
   for_each (Object_entries assigns)
     (fun '(name, value) =>
        stream_write (LF ++ "  " ++ name ++ " = " ++ to_text value)) ;;
   stream_write LF ;;
   pool <- field edge_pool ;;
   when_defined pool
     (fun p => stream_write ("  pool = " ++ p ++ LF)))%method.

(** ** NinjaRuleBuilder *)

Record NinjaRuleBuilder : Type := {
  rule_name : string;
  rule_command : string;
  rule_desc : option string;
  rule_dependencyFile : option string;
  rule_doRestat : option bool;
  rule_isGenerator : option bool;
  rule_pool : option string
}.

Definition new_NinjaRuleBuilder (name : string) : NinjaRuleBuilder :=
  {| rule_name := name;
     rule_command := "";
     rule_desc := None;
     rule_dependencyFile := None;
     rule_doRestat := None;
     rule_isGenerator := None;
     rule_pool := None |}.

Definition NinjaRuleBuilder_run (command : string) (this : NinjaRuleBuilder)
  : NinjaRuleBuilder :=
  {| rule_name := rule_name this;
     rule_command := command;
     rule_desc := rule_desc this;
     rule_dependencyFile := rule_dependencyFile this;
     rule_doRestat := rule_doRestat this;
     rule_isGenerator := rule_isGenerator this;
     rule_pool := rule_pool this |}.

Definition NinjaRuleBuilder_description (desc : string)
    (this : NinjaRuleBuilder) : NinjaRuleBuilder :=
  {| rule_name := rule_name this;
     rule_command := rule_command this;
     rule_desc := Some desc;
     rule_dependencyFile := rule_dependencyFile this;
     rule_doRestat := rule_doRestat this;
     rule_isGenerator := rule_isGenerator this;
     rule_pool := rule_pool this |}.

Definition NinjaRuleBuilder_depfile (file : string) (this : NinjaRuleBuilder)
  : NinjaRuleBuilder :=
  {| rule_name := rule_name this;
     rule_command := rule_command this;
     rule_desc := rule_desc this;
     rule_dependencyFile := Some file;
     rule_doRestat := rule_doRestat this;
     rule_isGenerator := rule_isGenerator this;
     rule_pool := rule_pool this |}.

Definition NinjaRuleBuilder_restat (doRestat : bool) (this : NinjaRuleBuilder)
  : NinjaRuleBuilder :=
  {| rule_name := rule_name this;
     rule_command := rule_command this;
     rule_desc := rule_desc this;
     rule_dependencyFile := rule_dependencyFile this;
     rule_doRestat := Some doRestat;
     rule_isGenerator := rule_isGenerator this;
     rule_pool := rule_pool this |}.

Definition NinjaRuleBuilder_generator (isGenerator : bool)
    (this : NinjaRuleBuilder) : NinjaRuleBuilder :=
  {| rule_name := rule_name this;
     rule_command := rule_command this;
     rule_desc := rule_desc this;
     rule_dependencyFile := rule_dependencyFile this;
     rule_doRestat := rule_doRestat this;
     rule_isGenerator := Some isGenerator;
     rule_pool := rule_pool this |}.

Definition NinjaRuleBuilder_pool (pool : string) (this : NinjaRuleBuilder)
  : NinjaRuleBuilder :=
  {| rule_name := rule_name this;
     rule_command := rule_command this;
     rule_desc := rule_desc this;
     rule_dependencyFile := rule_dependencyFile this;
     rule_doRestat := rule_doRestat this;
     rule_isGenerator := rule_isGenerator this;
     rule_pool := Some pool |}.

(** Truthiness of a field of type [boolean | undefined]. *)
Definition truthy (b : option bool) : bool :=
  match b with Some true => true | _ => false end.

Definition NinjaRuleBuilder_write : method NinjaRuleBuilder unit :=
  (name <- field rule_name ;;
   command <- field rule_command ;;
   stream_write ("rule " ++ name ++ LF ++ "  command = " ++ command ++ LF) ;;
   desc <- field rule_desc ;;
   when_defined desc
     (fun d => stream_write ("  description = " ++ d ++ LF)) ;;
   doRestat <- field rule_doRestat ;;
   when (truthy doRestat) (stream_write ("  restat = 1" ++ LF)) ;;
   isGenerator <- field rule_isGenerator ;;
   when (truthy isGenerator) (stream_write ("  generator = 1" ++ LF)) ;;
   pool <- field rule_pool ;;
   when_defined pool (fun p => stream_write ("  pool = " ++ p ++ LF)) ;;
   dependencyFile <- field rule_dependencyFile ;;
   when_defined dependencyFile
     (fun f => stream_write ("  depfile = " ++ f ++ LF) ;;
               stream_write ("  deps = gcc" ++ LF)))%method.

(** ** NinjaBuilder *)

Record NinjaBuilder : Type := {
  ninja_version : option string;
  ninja_buildDir : option string;
  ninja_edges : list NinjaEdgeBuilder;
  ninja_rules : list NinjaRuleBuilder;
  ninja_variables : list NinjaAssignBuilder;
  ninja_edgeCount : nat;
  ninja_ruleCount : nat;
  ninja_headerValue : option string;
  ninja_defaultRule : option string
}.

Definition new_NinjaBuilder (version buildDir : option string)
  : NinjaBuilder :=
  {| ninja_version := version;
     ninja_buildDir := buildDir;
     ninja_edges := [];
     ninja_rules := [];
     ninja_variables := [];
     ninja_edgeCount := 0;
     ninja_ruleCount := 0;
     ninja_headerValue := None;
     ninja_defaultRule := None |}.

Definition set_edges (l : list NinjaEdgeBuilder) (this : NinjaBuilder)
  : NinjaBuilder :=
  {| ninja_version := ninja_version this;
     ninja_buildDir := ninja_buildDir this;
     ninja_edges := l;
     ninja_rules := ninja_rules this;
     ninja_variables := ninja_variables this;
     ninja_edgeCount := ninja_edgeCount this;
     ninja_ruleCount := ninja_ruleCount this;
     ninja_headerValue := ninja_headerValue this;
     ninja_defaultRule := ninja_defaultRule this |}.

Definition set_rules (l : list NinjaRuleBuilder) (this : NinjaBuilder)
  : NinjaBuilder :=
  {| ninja_version := ninja_version this;
     ninja_buildDir := ninja_buildDir this;
     ninja_edges := ninja_edges this;
     ninja_rules := l;
     ninja_variables := ninja_variables this;
     ninja_edgeCount := ninja_edgeCount this;
     ninja_ruleCount := ninja_ruleCount this;
     ninja_headerValue := ninja_headerValue this;
     ninja_defaultRule := ninja_defaultRule this |}.

Definition set_variables (l : list NinjaAssignBuilder) (this : NinjaBuilder)
  : NinjaBuilder :=
  {| ninja_version := ninja_version this;
     ninja_buildDir := ninja_buildDir this;
     ninja_edges := ninja_edges this;
     ninja_rules := ninja_rules this;
     ninja_variables := l;
     ninja_edgeCount := ninja_edgeCount this;
     ninja_ruleCount := ninja_ruleCount this;
     ninja_headerValue := ninja_headerValue this;
     ninja_defaultRule := ninja_defaultRule this |}.

Definition NinjaBuilder_edgeCount (this : NinjaBuilder) : nat :=
  ninja_edgeCount this.

Definition NinjaBuilder_ruleCount (this : NinjaBuilder) : nat :=
  ninja_ruleCount this.

Definition NinjaBuilder_header (value : string) (this : NinjaBuilder)
  : NinjaBuilder :=
  {| ninja_version := ninja_version this;
     ninja_buildDir := ninja_buildDir this;
     ninja_edges := ninja_edges this;
     ninja_rules := ninja_rules this;
     ninja_variables := ninja_variables this;
     ninja_edgeCount := ninja_edgeCount this;
     ninja_ruleCount := ninja_ruleCount this;
     ninja_headerValue := Some value;
     ninja_defaultRule := ninja_defaultRule this |}.

Definition NinjaBuilder_byDefault (name : string) (this : NinjaBuilder)
  : NinjaBuilder :=
  {| ninja_version := ninja_version this;
     ninja_buildDir := ninja_buildDir this;
     ninja_edges := ninja_edges this;
     ninja_rules := ninja_rules this;
     ninja_variables := ninja_variables this;
     ninja_edgeCount := ninja_edgeCount this;
     ninja_ruleCount := ninja_ruleCount this;
     ninja_headerValue := ninja_headerValue this;
     ninja_defaultRule := Some name |}.

(** The three factory methods push the new clause and return it.  The clause
    returned is the object stored at the end of the array: the result is the
    index it was pushed at, the handle for later fluent calls, and the state
    of the builder after the call. *)
Definition NinjaBuilder_assign (name value : string_or_number)
    (this : NinjaBuilder) : nat * NinjaBuilder :=
  (length (ninja_variables this),
   set_variables
     (ninja_variables this ++ [new_NinjaAssignBuilder name value])%list this).

Definition NinjaBuilder_rule (name : string) (this : NinjaBuilder)
  : nat * NinjaBuilder :=
  (length (ninja_rules this),
   {| ninja_version := ninja_version this;
      ninja_buildDir := ninja_buildDir this;
      ninja_edges := ninja_edges this;
      ninja_rules := (ninja_rules this ++ [new_NinjaRuleBuilder name])%list;
      ninja_variables := ninja_variables this;
      ninja_edgeCount := ninja_edgeCount this;
      ninja_ruleCount := S (ninja_ruleCount this);
      ninja_headerValue := ninja_headerValue this;
      ninja_defaultRule := ninja_defaultRule this |}).

Definition NinjaBuilder_edge (targets : string_or_array) (this : NinjaBuilder)
  : nat * NinjaBuilder :=
  (length (ninja_edges this),
   {| ninja_version := ninja_version this;
      ninja_buildDir := ninja_buildDir this;
      ninja_edges := (ninja_edges this ++ [new_NinjaEdgeBuilder targets])%list;
      ninja_rules := ninja_rules this;
      ninja_variables := ninja_variables this;
      ninja_edgeCount := S (ninja_edgeCount this);
      ninja_ruleCount := ninja_ruleCount this;
      ninja_headerValue := ninja_headerValue this;
      ninja_defaultRule := ninja_defaultRule this |}).

Definition NinjaBuilder_saveToStream : method NinjaBuilder unit :=
  (headerValue <- field ninja_headerValue ;;
   when_defined headerValue (fun h => stream_write (h ++ LF ++ LF)) ;;
   version <- field ninja_version ;;
   when_defined version
     (fun v => stream_write ("ninja_required_version = " ++ v ++ LF)) ;;
   buildDir <- field ninja_buildDir ;;
   when_defined buildDir (fun d => stream_write ("builddir=" ++ d ++ LF)) ;;
   for_of ninja_rules set_rules NinjaRuleBuilder_write ;;
   for_of ninja_edges set_edges NinjaEdgeBuilder_write ;;
   for_of ninja_variables set_variables NinjaAssignBuilder_write ;;
   defaultRule <- field ninja_defaultRule ;;
   when_defined defaultRule
     (fun n => stream_write ("default " ++ n ++ LF)))%method.

(** ** Client scripts

    A client of the library calls the methods of the builder and of the
    clauses it got back, in any order.  A clause is named by its handle. *)

Inductive rule_call : Type :=
| Rule_run (command : string)
| Rule_description (desc : string)
| Rule_depfile (file : string)
| Rule_restat (doRestat : bool)
| Rule_generator (isGenerator : bool)
| Rule_pool (pool : string).

Inductive edge_call : Type :=
| Edge_using (rule : string)
| Edge_from (sources : string_or_array)
| Edge_need (dependencies : string_or_array)
| Edge_after (orderDeps : string_or_array)
| Edge_assign (name value : string_or_number)
| Edge_pool (pool : string).

Inductive ninja_call : Type :=
| Call_header (value : string)
| Call_byDefault (name : string)
| Call_assign (name value : string_or_number)
| Call_rule (name : string)
| Call_edge (targets : string_or_array)
| Call_on_rule (handle : nat) (c : rule_call)
| Call_on_edge (handle : nat) (c : edge_call).

Definition do_rule_call (c : rule_call) : NinjaRuleBuilder -> NinjaRuleBuilder :=
  match c with
  | Rule_run command => NinjaRuleBuilder_run command
  | Rule_description desc => NinjaRuleBuilder_description desc
  | Rule_depfile file => NinjaRuleBuilder_depfile file
  | Rule_restat doRestat => NinjaRuleBuilder_restat doRestat
  | Rule_generator isGenerator => NinjaRuleBuilder_generator isGenerator
  | Rule_pool pool => NinjaRuleBuilder_pool pool
  end.

Definition do_edge_call (c : edge_call) : NinjaEdgeBuilder -> NinjaEdgeBuilder :=
  match c with
  | Edge_using rule => NinjaEdgeBuilder_using rule
  | Edge_from sources => NinjaEdgeBuilder_from sources
  | Edge_need dependencies => NinjaEdgeBuilder_need dependencies
  | Edge_after orderDeps => NinjaEdgeBuilder_after orderDeps
  | Edge_assign name value => NinjaEdgeBuilder_assign name value
  | Edge_pool pool => NinjaEdgeBuilder_pool pool
  end.

Definition do_rule_calls (cs : list rule_call) (this : NinjaRuleBuilder)
  : NinjaRuleBuilder :=
  fold_left (fun r c => do_rule_call c r) cs this.

Definition do_edge_calls (cs : list edge_call) (this : NinjaEdgeBuilder)
  : NinjaEdgeBuilder :=
  fold_left (fun e c => do_edge_call c e) cs this.

(** A call on the clause with the given handle; a handle no factory call has
    returned yet names no object, and nothing happens. *)
Definition on_clause {C} (handle : nat) (f : C -> C) (l : list C) : list C :=
  match nth_error l handle with
  | Some c => list_update handle (f c) l
  | None => l
  end.

Definition do_call (c : ninja_call) (this : NinjaBuilder) : NinjaBuilder :=
  match c with
  | Call_header value => NinjaBuilder_header value this
  | Call_byDefault name => NinjaBuilder_byDefault name this
  | Call_assign name value => snd (NinjaBuilder_assign name value this)
  | Call_rule name => snd (NinjaBuilder_rule name this)
  | Call_edge targets => snd (NinjaBuilder_edge targets this)
  | Call_on_rule h rc =>
      set_rules (on_clause h (do_rule_call rc) (ninja_rules this)) this
  | Call_on_edge h ec =>
      set_edges (on_clause h (do_edge_call ec) (ninja_edges this)) this
  end.

Definition do_calls (cs : list ninja_call) (this : NinjaBuilder)
  : NinjaBuilder :=
  fold_left (fun n c => do_call c n) cs this.

(** ** Renderings in the words of the specification *)

Definition opt_text {A} (x : option A) (f : A -> string) : string :=
  match x with Some a => f a | None => "" end.

(** 4.3, steps 1 to 7. *)
Definition rule_text_spec (r : NinjaRuleBuilder) : string :=
  ("rule " ++ rule_name r ++ LF)
  ++ ("  command = " ++ rule_command r ++ LF)
  ++ opt_text (rule_desc r) (fun d => "  description = " ++ d ++ LF)
  ++ (match rule_doRestat r with
      | Some true => "  restat = 1" ++ LF
      | Some false | None => ""
      end)
  ++ (match rule_isGenerator r with
      | Some true => "  generator = 1" ++ LF
      | Some false | None => ""
      end)
  ++ opt_text (rule_pool r) (fun p => "  pool = " ++ p ++ LF)
  ++ opt_text (rule_dependencyFile r)
       (fun f => ("  depfile = " ++ f ++ LF) ++ ("  deps = gcc" ++ LF)).

(** One override line: newline, two spaces, [<key> = <value>]. *)
Definition override_line (kv : string * string_or_number) : string :=
  LF ++ "  " ++ fst kv ++ " = " ++ to_text (snd kv).

(** 4.4, the render algorithm, with a clause for every accumulator that is
    not empty. *)
Definition clause_if_nonempty (prefix : string) (acc : option (list string))
  : string :=
  match acc with
  | Some (x :: a) => prefix ++ Array_join " " (x :: a)
  | Some [] | None => ""
  end.

Definition edge_text_spec (e : NinjaEdgeBuilder) : string :=
  ("build " ++ Array_join " " (edge_targets e) ++ ": " ++ edge_rule e)
  ++ clause_if_nonempty " " (edge_sources e)
  ++ clause_if_nonempty " | " (edge_dependencies e)
  ++ clause_if_nonempty " || " (edge_orderDeps e)
  ++ String.concat "" (map override_line (Object_entries (edge_assigns e)))
  ++ LF
  ++ opt_text (edge_pool e) (fun p => "  pool = " ++ p ++ LF).

(** The same with a clause for every accumulator that is present, that is,
    whose method was called at least once. *)
Definition clause_if_present (prefix : string) (acc : option (list string))
  : string :=
  opt_text acc (fun a => prefix ++ Array_join " " a).

Definition edge_text (e : NinjaEdgeBuilder) : string :=
  ("build " ++ Array_join " " (edge_targets e) ++ ": " ++ edge_rule e)
  ++ clause_if_present " " (edge_sources e)
  ++ clause_if_present " | " (edge_dependencies e)
  ++ clause_if_present " || " (edge_orderDeps e)
  ++ String.concat "" (map override_line (Object_entries (edge_assigns e)))
  ++ LF
  ++ opt_text (edge_pool e) (fun p => "  pool = " ++ p ++ LF).

(** 4.2 *)
Definition assign_text (v : NinjaAssignBuilder) : string :=
  to_text (assign_name v) ++ " = " ++ to_text (assign_value v) ++ LF.

(** 4.5, steps 1 to 7, over the text of each clause. *)
Definition save_text (n : NinjaBuilder) : string :=
  opt_text (ninja_headerValue n) (fun h => h ++ LF ++ LF)
  ++ opt_text (ninja_version n)
       (fun v => "ninja_required_version = " ++ v ++ LF)
  ++ opt_text (ninja_buildDir n) (fun d => "builddir=" ++ d ++ LF)
  ++ String.concat ""
       (map (rendered NinjaRuleBuilder_write) (ninja_rules n))
  ++ String.concat ""
       (map (rendered NinjaEdgeBuilder_write) (ninja_edges n))
  ++ String.concat ""
       (map (rendered NinjaAssignBuilder_write) (ninja_variables n))
  ++ opt_text (ninja_defaultRule n) (fun d => "default " ++ d ++ LF).

(** What a script registered, in the order of the factory calls. *)
Fixpoint registered_rules (cs : list ninja_call) : list string :=
  match cs with
  | [] => []
  | Call_rule name :: cs' => name :: registered_rules cs'
  | _ :: cs' => registered_rules cs'
  end.

Fixpoint registered_edges (cs : list ninja_call) : list string_or_array :=
  match cs with
  | [] => []
  | Call_edge targets :: cs' => targets :: registered_edges cs'
  | _ :: cs' => registered_edges cs'
  end.

Fixpoint registered_variables (cs : list ninja_call)
  : list (string_or_number * string_or_number) :=
  match cs with
  | [] => []
  | Call_assign name value :: cs' => (name, value) :: registered_variables cs'
  | _ :: cs' => registered_variables cs'
  end.

(** The argument of the last call of [header], and of [byDefault]. *)
Fixpoint last_header (cs : list ninja_call) : option string :=
  match cs with
  | [] => None
  | c :: cs' =>
      match last_header cs', c with
      | Some h, _ => Some h
      | None, Call_header value => Some value
      | None, _ => None
      end
  end.

Fixpoint last_default (cs : list ninja_call) : option string :=
  match cs with
  | [] => None
  | c :: cs' =>
      match last_default cs', c with
      | Some d, _ => Some d
      | None, Call_byDefault name => Some name
      | None, _ => None
      end
  end.

(** A value that a later call may overwrite. *)
Definition overwritten {A} (old new : option A) : option A :=
  match new with Some a => Some a | None => old end.



(** The arguments of the calls of one accumulating method, in call order. *)
Definition as_array (x : string_or_array) : list string :=
  match x with One s => [s] | Many a => a end.

Fixpoint from_args (cs : list edge_call) : list (list string) :=
  match cs with
  | [] => []
  | Edge_from x :: cs' => as_array x :: from_args cs'
  | _ :: cs' => from_args cs'
  end.

Fixpoint need_args (cs : list edge_call) : list (list string) :=
  match cs with
  | [] => []
  | Edge_need x :: cs' => as_array x :: need_args cs'
  | _ :: cs' => need_args cs'
  end.

Fixpoint after_args (cs : list edge_call) : list (list string) :=
  match cs with
  | [] => []
  | Edge_after x :: cs' => as_array x :: after_args cs'
  | _ :: cs' => after_args cs'
  end.

(** An accumulator after calls with the given arguments: untouched when there
    was no call, otherwise what it held followed by every argument. *)
Definition accumulated (acc : option (list string)) (args : list (list string))
  : option (list string) :=
  match args with
  | [] => acc
  | _ :: _ =>
      Some ((match acc with Some a => a | None => [] end) ++ List.concat args)%list
  end.

(** The [(key, value)] pairs of the calls of [assign], in call order. *)
Fixpoint assign_args (cs : list edge_call) : list (string * string_or_number) :=
  match cs with
  | [] => []
  | Edge_assign name value :: cs' => (to_text name, value) :: assign_args cs'
  | _ :: cs' => assign_args cs'
  end.

(** The value of the last write to a key. *)
Fixpoint last_write {V} (k : string) (kvs : list (string * V)) : option V :=
  match kvs with
  | [] => None
  | (k', v) :: kvs' =>
      match last_write k kvs' with
      | Some v' => Some v'
      | None => if String.eqb k' k then Some v else None
      end
  end.

(** The keys of a list in the order of their first occurrence. *)
Fixpoint first_occurrences (ks : list string) : list string :=
  match ks with
  | [] => []
  | k :: ks' =>
      k :: filter (fun k' => negb (String.eqb k' k)) (first_occurrences ks')
  end.

(** ** Notions used in the statements *)

(** A method that only writes: it leaves its receiver as it found it and
    appends to the stream chunks that depend on the receiver alone. *)
Definition writes_only {T} (m : method T unit) (chunks : T -> list string)
  : Prop :=
  forall this stream, m this stream = (tt, this, (stream ++ chunks this)%list).

(** The chunks a method writes when called on [this]. *)
Definition chunks_of {T} (m : method T unit) (this : T) : list string :=
  stream_after (m this []).

Definition has_key (k : string) (ks : list string) : bool :=
  existsb (fun k' => String.eqb k' k) ks.

Definition obj_assign_all {V} (kvs : list (string * V)) (o : JSObject V)
  : JSObject V :=
  fold_left (fun o kv => obj_assign (fst kv) (snd kv) o) kvs o.

Definition not_proto (k : string) : bool := negb (String.eqb k "__proto__").

(** Ascending order of array indices. *)
Definition index_le {V} (a b : string * V) : Prop :=
  (index_value (fst a) <= index_value (fst b))%N.

Definition index_lt {V} (a b : string * V) : Prop :=
  (index_value (fst a) < index_value (fst b))%N.

(** The characters the escaper prefixes, and their number in a string. *)
Definition special (c : ascii) : bool := in_class [" "; ":"; "$"]%char c.

Fixpoint count_special (s : string) : nat :=
  match s with
  | EmptyString => 0
  | String c s' => (if special c then 1 else 0) + count_special s'
  end.

(** The argument of the last call of a sequence that a selector picks. *)
Fixpoint last_some {C A} (sel : C -> option A) (cs : list C) : option A :=
  match cs with
  | [] => None
  | c :: cs' =>
      match last_some sel cs' with
      | Some a => Some a
      | None => sel c
      end
  end.

Definition run_arg (c : rule_call) : option string :=
  match c with Rule_run command => Some command | _ => None end.

Definition description_arg (c : rule_call) : option string :=
  match c with Rule_description desc => Some desc | _ => None end.

Definition depfile_arg (c : rule_call) : option string :=
  match c with Rule_depfile file => Some file | _ => None end.

Definition restat_arg (c : rule_call) : option bool :=
  match c with Rule_restat doRestat => Some doRestat | _ => None end.

Definition generator_arg (c : rule_call) : option bool :=
  match c with Rule_generator isGenerator => Some isGenerator | _ => None end.

Definition rule_pool_arg (c : rule_call) : option string :=
  match c with Rule_pool pool => Some pool | _ => None end.

Definition using_arg (c : edge_call) : option string :=
  match c with Edge_using rule => Some rule | _ => None end.

Definition edge_pool_arg (c : edge_call) : option string :=
  match c with Edge_pool pool => Some pool | _ => None end.

(** A builder in which nothing was declared. *)
Definition undeclared (n : NinjaBuilder) : Prop :=
  ninja_headerValue n = None
  /\ ninja_version n = None
  /\ ninja_buildDir n = None
  /\ ninja_rules n = []
  /\ ninja_edges n = []
  /\ ninja_variables n = []
  /\ ninja_defaultRule n = None.

(** A text whose last character is a line feed. *)
Definition newline_terminated (s : string) : Prop :=
  exists p : string, s = p ++ LF.

(** Reading back a line of names: a dollar sign makes the character after it
    part of the current name, a space that no dollar sign precedes ends the
    current name.  The result is the first name and the names after it. *)
Fixpoint unjoin (s : string) : string * list string :=
  match s with
  | EmptyString => (EmptyString, [])
  | String c rest =>
      if Ascii.eqb c "$" then
        match rest with
        | String c' rest' =>
            let '(name, names) := unjoin rest' in (String c' name, names)
        | EmptyString => (String c EmptyString, [])
        end
      else if Ascii.eqb c " " then
        let '(name, names) := unjoin rest in (EmptyString, name :: names)
      else
        let '(name, names) := unjoin rest in (String c name, names)
  end.

(** A text that is empty or ends with a line feed. *)
Definition empty_or_terminated (s : string) : Prop :=
  s = "" \/ newline_terminated s.

(** An edge with other targets and everything else the same. *)
Definition with_targets (targets : list string) (e : NinjaEdgeBuilder)
  : NinjaEdgeBuilder :=
  {| edge_targets := targets;
     edge_assigns := edge_assigns e;
     edge_rule := edge_rule e;
     edge_sources := edge_sources e;
     edge_dependencies := edge_dependencies e;
     edge_orderDeps := edge_orderDeps e;
     edge_pool := edge_pool e |}.

(** What two passes of the escaper make of a character: the first pass puts
    a dollar sign before a space, a colon or a dollar sign; the second pass
    doubles that dollar sign and puts another before the character. *)
Definition escape_twice_char_spec (c : ascii) : list ascii :=
  if (Ascii.eqb c " " || Ascii.eqb c ":" || Ascii.eqb c "$")%bool
  then ["$"%char; "$"%char; "$"%char; c] else [c].

(** * Verification *)

(** ** Strings and streams *)

Lemma string_app_assoc (a b c : string) : (a ++ b) ++ c = a ++ (b ++ c).
Proof.
  induction a as [|x a IH]; simpl; [reflexivity | now rewrite IH].
Qed.

Lemma string_app_nil_r (a : string) : a ++ "" = a.
Proof.
  induction a as [|x a IH]; simpl; [reflexivity | now rewrite IH].
Qed.

Lemma contents_cons (x : string) (stream : Stream) :
  contents (x :: stream) = x ++ contents stream.
Proof.
  unfold contents. destruct stream as [|y stream]; simpl.
  - now rewrite string_app_nil_r.
  - reflexivity.
Qed.

Lemma contents_app (s1 s2 : Stream) :
  contents (s1 ++ s2)%list = contents s1 ++ contents s2.
Proof.
  induction s1 as [|x s1 IH].
  - reflexivity.
  - change ((x :: s1) ++ s2)%list with (x :: (s1 ++ s2))%list.
    now rewrite !contents_cons, IH, string_app_assoc.
Qed.

Lemma contents_nil : contents [] = "".
Proof. reflexivity. Qed.

Lemma writes_only_rendered {T} (m : method T unit) chunks :
  writes_only m chunks ->
  forall this, rendered m this = contents (chunks this).
Proof.
  intros H this. unfold rendered, stream_after. now rewrite H.
Qed.

Lemma writes_only_contents {T} (m : method T unit) chunks :
  writes_only m chunks ->
  forall this stream,
    contents (stream_after (m this stream))
    = contents stream ++ rendered m this.
Proof.
  intros H this stream. rewrite (writes_only_rendered m chunks H).
  unfold stream_after. rewrite H. simpl. apply contents_app.
Qed.

Lemma list_update_same {C} (l : list C) i c :
  nth_error l i = Some c -> list_update i c l = l.
Proof.
  revert i. induction l as [|x l IH]; intros [|i] H; simpl in *;
    try discriminate.
  - now inversion H.
  - now rewrite IH.
Qed.

Lemma skipn_nth_error {C} (l : list C) i c :
  nth_error l i = Some c -> skipn i l = c :: skipn (S i) l.
Proof.
  revert i. induction l as [|x l IH]; intros [|i] H; simpl in *;
    try discriminate.
  - now inversion H.
  - now apply IH.
Qed.

(** A loop over the clauses of a builder whose body only writes: the builder
    is left as it was, and the stream receives the chunks of every clause from
    the current index on, in the order of the array. *)
Lemma for_of_from_writes {T C} (arr : T -> list C) set_arr body chunks :
  (forall this, set_arr (arr this) this = this) ->
  writes_only body chunks ->
  forall fuel i this stream,
    length (arr this) <= fuel + i ->
    for_of_from arr set_arr body fuel i this stream
    = (tt, this,
       (stream ++ List.concat (map chunks (skipn i (arr this))))%list).
Proof.
  intros Hset Hbody fuel.
  induction fuel as [|fuel IH]; intros i this stream Hlen; simpl.
  - rewrite skipn_all2 by lia. simpl. unfold ret. now rewrite app_nil_r.
  - destruct (nth_error (arr this) i) as [child|] eqn:E.
    + rewrite Hbody, (list_update_same _ _ _ E), Hset.
      rewrite IH by lia.
      rewrite (skipn_nth_error _ _ _ E). simpl.
      now rewrite <- app_assoc.
    + apply nth_error_None in E. rewrite skipn_all2 by lia. simpl.
      now rewrite app_nil_r.
Qed.

Lemma for_of_writes {T C} (arr : T -> list C) set_arr body chunks :
  (forall this, set_arr (arr this) this = this) ->
  writes_only body chunks ->
  writes_only (for_of arr set_arr body)
    (fun this => List.concat (map chunks (arr this))).
Proof.
  intros Hset Hbody this stream. unfold for_of.
  rewrite (for_of_from_writes arr set_arr body chunks Hset Hbody) by lia.
  reflexivity.
Qed.

Lemma contents_concat_map {C} (chunks : C -> list string) (l : list C) :
  contents (List.concat (map chunks l))
  = String.concat "" (map (fun c => contents (chunks c)) l).
Proof.
  induction l as [|c l IH]; simpl.
  - reflexivity.
  - rewrite contents_app, IH.
    symmetry. apply (contents_cons (contents (chunks c))).
Qed.

(** ** The write methods only write *)

Ltac unfold_method :=
  unfold chunks_of, stream_after, bind, field, stream_write, when,
    when_defined, ret.

Lemma NinjaAssignBuilder_write_only :
  writes_only NinjaAssignBuilder_write (chunks_of NinjaAssignBuilder_write).
Proof.
  intros this stream. unfold NinjaAssignBuilder_write. unfold_method.
  reflexivity.
Qed.

Lemma NinjaRuleBuilder_write_only :
  writes_only NinjaRuleBuilder_write (chunks_of NinjaRuleBuilder_write).
Proof.
  intros this stream. unfold NinjaRuleBuilder_write. unfold_method.
  destruct this as [name command [d|] [f|] [[|]|] [[|]|] [p|]];
    cbn -[String.append LF]; rewrite <- ?app_assoc; reflexivity.
Qed.

Lemma for_each_override_lines (entries : list (string * string_or_number))
    (e : NinjaEdgeBuilder) (s : Stream) :
  for_each entries
    (fun '(name, value) =>
       stream_write (LF ++ "  " ++ name ++ " = " ++ to_text value)) e s
  = (tt, e, (s ++ map override_line entries)%list).
Proof.
  revert s. induction entries as [|[k v] entries IH]; intros s; simpl.
  - unfold ret. now rewrite app_nil_r.
  - unfold bind, stream_write at 1. rewrite IH.
    now rewrite <- app_assoc.
Qed.

Lemma NinjaEdgeBuilder_write_only :
  writes_only NinjaEdgeBuilder_write (chunks_of NinjaEdgeBuilder_write).
Proof.
  intros this stream. unfold NinjaEdgeBuilder_write. unfold_method.
  destruct this as [targets assigns rule [a|] [b|] [c|] [p|]];
    cbn -[String.append LF Object_entries for_each];
    rewrite !for_each_override_lines;
    cbn -[String.append LF Object_entries];
    rewrite <- ?app_assoc; reflexivity.
Qed.

Ltac string_norm :=
  rewrite ?contents_cons, ?contents_nil;
  repeat rewrite string_app_assoc;
  repeat rewrite string_app_nil_r;
  try reflexivity.

(** ** Escaper *)

(** C4. [escape] replaces each space, colon and dollar sign by a dollar sign
    followed by that character and keeps every other character; on the
    documented example it returns ["foo$:bar$$glo$ fiz.js"]. *)
Theorem escape_contract :
  (forall s : string, escape s = escape_spec s)
  /\ escape "foo:bar$glo fiz.js" = "foo$:bar$$glo$ fiz.js".
Proof.
  split; [|reflexivity].
  intros s. unfold escape, escape_spec.
  induction s as [|c s IH]; [reflexivity|].
  cbn [String_replace_class_g list_ascii_of_string flat_map].
  rewrite IH. unfold in_class, escape_char_spec. cbn [existsb].
  destruct (Ascii.eqb c " "), (Ascii.eqb c ":"), (Ascii.eqb c "$");
    reflexivity.
Qed.

Lemma escape_cons (c : ascii) (s : string) :
  escape (String c s)
  = if special c then String "$" (String c (escape s))
    else String c (escape s).
Proof.
  unfold escape, special. cbn [String_replace_class_g].
  now destruct (in_class [" "; ":"; "$"]%char c).
Qed.

Lemma escape_length (s : string) :
  String.length (escape s) = String.length s + count_special s.
Proof.
  induction s as [|c s IH]; [reflexivity|].
  rewrite escape_cons. cbn [count_special String.length].
  destruct (special c); cbn [String.length]; rewrite IH; lia.
Qed.

Lemma escape_count_special (s : string) :
  count_special (escape s) = 2 * count_special s.
Proof.
  induction s as [|c s IH]; [reflexivity|].
  rewrite escape_cons. cbn [count_special].
  destruct (special c) eqn:E; cbn [count_special]; rewrite ?E, IH.
  - change (special "$") with true. cbv iota. lia.
  - lia.
Qed.

Lemma escape_fixes_iff (s : string) : escape s = s <-> count_special s = 0.
Proof.
  split.
  - intros E. apply (f_equal String.length) in E.
    rewrite escape_length in E. lia.
  - induction s as [|c s IH]; [reflexivity|].
    rewrite escape_cons. cbn [count_special].
    destruct (special c); [discriminate|].
    intros H. now rewrite IH.
Qed.

Lemma special_false_iff (c : ascii) :
  special c = false
  <-> c <> " "%char /\ c <> ":"%char /\ c <> "$"%char.
Proof.
  unfold special, in_class. cbn [existsb].
  rewrite !orb_false_iff, !Ascii.eqb_neq. tauto.
Qed.

Lemma count_special_zero_iff (s : string) :
  count_special s = 0
  <-> (forall c, In c (list_ascii_of_string s) -> special c = false).
Proof.
  induction s as [|c s IH]; cbn [count_special list_ascii_of_string In].
  - split; [intros _ c [] | reflexivity].
  - split.
    + intros H c' [<-|Hin].
      * destruct (special c); [discriminate | reflexivity].
      * apply IH; [|exact Hin]. destruct (special c); [discriminate|exact H].
    + intros H. rewrite (H c (or_introl eq_refl)).
      apply IH. intros c' Hin. apply H. now right.
Qed.

(** Escaping twice is not escaping once.  The second pass escapes the dollar
    signs the first pass inserted: after two passes every space, colon and
    dollar sign of the string has three dollar signs before it and every
    other character is as it was.  So the second pass leaves the escaped
    string alone exactly when the string holds no space, colon or dollar
    sign. *)
Theorem escape_twice :
  forall s : string,
    escape (escape s)
    = string_of_list_ascii
        (flat_map escape_twice_char_spec (list_ascii_of_string s))
    /\ (escape (escape s) = escape s
        <-> (forall c : ascii,
               In c (list_ascii_of_string s) ->
               c <> " "%char /\ c <> ":"%char /\ c <> "$"%char)).
Proof.
  intros s. split.
  - induction s as [|c s IH]; [reflexivity|].
    cbn [list_ascii_of_string flat_map].
    rewrite escape_cons. unfold escape_twice_char_spec.
    assert (E : special c
                = (Ascii.eqb c " " || Ascii.eqb c ":" || Ascii.eqb c "$")%bool).
    { unfold special, in_class. cbn [existsb].
      now destruct (Ascii.eqb c " "), (Ascii.eqb c ":"), (Ascii.eqb c "$"). }
    rewrite <- E. destruct (special c) eqn:Ec.
    + rewrite !escape_cons, Ec. change (special "$") with true.
      cbv iota. cbn [app string_of_list_ascii]. now rewrite IH.
    + rewrite escape_cons, Ec. cbn [app string_of_list_ascii].
      now rewrite IH.
  - rewrite (escape_fixes_iff (escape s)), escape_count_special.
    assert (Z : 2 * count_special s = 0 <-> count_special s = 0) by lia.
    rewrite Z, count_special_zero_iff.
    split; intros H c Hin; apply special_false_iff; now apply H.
Qed.

(** Escaping loses nothing: two strings with the same escaped form are the
    same string. *)
Theorem escape_injective :
  forall s1 s2 : string, escape s1 = escape s2 -> s1 = s2.
Proof.
  induction s1 as [|c1 s1 IH]; intros [|c2 s2] E.
  - reflexivity.
  - rewrite escape_cons in E. change (escape "") with "" in E.
    destruct (special c2); discriminate E.
  - rewrite escape_cons in E. change (escape "") with "" in E.
    destruct (special c1); discriminate E.
  - rewrite !escape_cons in E.
    destruct (special c1) eqn:E1, (special c2) eqn:E2; inversion E; subst.
    + f_equal. now apply IH.
    + cbv in E2. discriminate E2.
    + cbv in E1. discriminate E1.
    + f_equal. now apply IH.
Qed.

(** ** Bindings *)

Lemma rendered_assign (v : NinjaAssignBuilder) :
  rendered NinjaAssignBuilder_write v = assign_text v.
Proof.
  unfold rendered, NinjaAssignBuilder_write, assign_text. unfold_method.
  cbn -[String.append LF contents]. string_norm.
Qed.

(** Writing a binding appends [<name> = <value>] and a newline, each of the
    two printed as a template literal prints it. *)
Theorem NinjaAssignBuilder_write_text :
  forall (v : NinjaAssignBuilder) (stream : Stream),
    contents (stream_after (NinjaAssignBuilder_write v stream))
    = contents stream
      ++ to_text (assign_name v) ++ " = " ++ to_text (assign_value v) ++ LF.
Proof.
  intros v stream.
  rewrite (writes_only_contents _ _ NinjaAssignBuilder_write_only).
  now rewrite rendered_assign.
Qed.

(** ** Rules *)

Lemma rendered_rule (r : NinjaRuleBuilder) :
  rendered NinjaRuleBuilder_write r = rule_text_spec r.
Proof.
  unfold rendered, NinjaRuleBuilder_write, rule_text_spec. unfold_method.
  destruct r as [name command [d|] [f|] [[|]|] [[|]|] [p|]];
    cbn -[String.append LF contents]; string_norm.
Qed.

(** C2. Writing a rule appends to the stream the rule line, the command line
    (whatever the command), then the description, restat, generator and pool
    lines, each only when its field is set (truthy for the two flags), and
    last the depfile line followed by the [deps = gcc] line when a dependency
    file is set. *)
Theorem NinjaRuleBuilder_write_text :
  forall (r : NinjaRuleBuilder) (stream : Stream),
    contents (stream_after (NinjaRuleBuilder_write r stream))
    = contents stream ++ rule_text_spec r.
Proof.
  intros r stream.
  rewrite (writes_only_contents _ _ NinjaRuleBuilder_write_only).
  now rewrite rendered_rule.
Qed.


Lemma string_app_inv_head (a x y : string) : a ++ x = a ++ y -> x = y.
Proof.
  induction a as [|c a IH]; simpl; intros H; [exact H|].
  apply IH. now inversion H.
Qed.




(** ** Edges *)

Lemma rendered_edge (e : NinjaEdgeBuilder) :
  rendered NinjaEdgeBuilder_write e = edge_text e.
Proof.
  unfold rendered, NinjaEdgeBuilder_write, edge_text. unfold_method.
  destruct e as [targets assigns rule [a|] [b|] [c|] [p|]];
    cbn -[String.append LF contents Object_entries for_each];
    rewrite for_each_override_lines;
    cbn -[String.append LF contents Object_entries];
    rewrite <- ?app_assoc; cbn [app];
    rewrite ?contents_cons, ?contents_app, ?contents_cons, ?contents_nil;
    unfold contents at 1; string_norm.
Qed.

(** C3, as amended.  Writing an edge appends the build line with the joined
    targets and the rule; then, for each of the three accumulators that is
    present (its method was called at least once, were it with an empty
    list), its separator and its joined content; then one line per override;
    then a newline; then the pool line when a pool is set.  The rule of
    a new edge is [phony], and only [using] changes the rule. *)
Theorem NinjaEdgeBuilder_write_text :
  (forall (e : NinjaEdgeBuilder) (stream : Stream),
     contents (stream_after (NinjaEdgeBuilder_write e stream))
     = contents stream ++ edge_text e)
  /\ (forall targets : string_or_array,
        edge_rule (new_NinjaEdgeBuilder targets) = "phony")
  /\ (forall (c : edge_call) (e : NinjaEdgeBuilder),
        edge_rule (do_edge_call c e)
        = match c with Edge_using rule => rule | _ => edge_rule e end).
Proof.
  split; [|split].
  - intros e stream.
    rewrite (writes_only_contents _ _ NinjaEdgeBuilder_write_only).
    now rewrite rendered_edge.
  - reflexivity.
  - now intros [].
Qed.

(** C9. On a fresh edge, [from([])] leaves the sources present and empty, and
    the edge then renders with a space between the rule and the newline,
    which the untouched edge does not have. *)
Theorem from_empty_renders_trailing_space :
  forall targets : string_or_array,
    let fresh := new_NinjaEdgeBuilder targets in
    let touched := NinjaEdgeBuilder_from (Many []) fresh in
    edge_sources fresh = None
    /\ edge_sources touched = Some []
    /\ rendered NinjaEdgeBuilder_write fresh
       = "build " ++ Array_join " " (as_array targets) ++ ": phony" ++ LF
    /\ rendered NinjaEdgeBuilder_write touched
       = "build " ++ Array_join " " (as_array targets) ++ ": phony" ++ " " ++ LF
    /\ rendered NinjaEdgeBuilder_write touched
       <> rendered NinjaEdgeBuilder_write fresh.
Proof.
  intros targets fresh touched.
  assert (F : rendered NinjaEdgeBuilder_write fresh
              = "build " ++ Array_join " " (as_array targets)
                ++ ": phony" ++ LF).
  { rewrite rendered_edge. unfold edge_text, fresh.
    destruct targets; cbn -[String.append LF]; string_norm. }
  assert (T : rendered NinjaEdgeBuilder_write touched
              = "build " ++ Array_join " " (as_array targets)
                ++ ": phony" ++ " " ++ LF).
  { rewrite rendered_edge. unfold edge_text, touched, fresh.
    destruct targets; cbn -[String.append LF]; string_norm. }
  repeat split; try assumption; try reflexivity.
  rewrite F, T. intros E.
  do 3 apply string_app_inv_head in E. discriminate E.
Qed.

(** C10. The constructor accepts an empty array and stores it as it is (a
    single string is the only argument that is wrapped); the edge then
    renders a build line with nothing before the colon. *)
Theorem empty_targets_edge :
  edge_targets (new_NinjaEdgeBuilder (Many [])) = []
  /\ (forall a : list string, edge_targets (new_NinjaEdgeBuilder (Many a)) = a)
  /\ (forall s : string, edge_targets (new_NinjaEdgeBuilder (One s)) = [s])
  /\ (forall stream : Stream,
        contents
          (stream_after
             (NinjaEdgeBuilder_write (new_NinjaEdgeBuilder (Many [])) stream))
        = contents stream ++ "build : phony" ++ LF).
Proof.
  repeat split.
  intros stream.
  rewrite (writes_only_contents _ _ NinjaEdgeBuilder_write_only).
  reflexivity.
Qed.

(** *** Accumulating methods *)

Lemma accumulated_push (acc : option (list string)) x args :
  accumulated (push_onto acc x) args = accumulated acc (as_array x :: args).
Proof.
  unfold accumulated, push_onto.
  destruct args as [|a args].
  - destruct x; cbn [as_array List.concat]; now rewrite ?app_nil_r.
  - destruct x; cbn [as_array List.concat]; now rewrite <- app_assoc.
Qed.

Lemma do_edge_calls_accumulate (cs : list edge_call) :
  forall e : NinjaEdgeBuilder,
    edge_sources (do_edge_calls cs e)
    = accumulated (edge_sources e) (from_args cs)
    /\ edge_dependencies (do_edge_calls cs e)
       = accumulated (edge_dependencies e) (need_args cs)
    /\ edge_orderDeps (do_edge_calls cs e)
       = accumulated (edge_orderDeps e) (after_args cs).
Proof.
  induction cs as [|c cs IH]; intros e.
  - repeat split.
  - change (do_edge_calls (c :: cs) e)
      with (do_edge_calls cs (do_edge_call c e)).
    destruct (IH (do_edge_call c e)) as (Hs & Hd & Ho).
    rewrite Hs, Hd, Ho.
    destruct c; cbn [do_edge_call from_args need_args after_args
                     NinjaEdgeBuilder_using NinjaEdgeBuilder_from
                     NinjaEdgeBuilder_need NinjaEdgeBuilder_after
                     NinjaEdgeBuilder_assign NinjaEdgeBuilder_pool
                     edge_sources edge_dependencies edge_orderDeps];
      rewrite ?accumulated_push; repeat split.
Qed.

(** C5. Whatever the sequence of calls on an edge, each of [from], [need] and
    [after] appends to its own accumulator: after the calls an accumulator
    holds what it held before followed by the arguments of its method's calls,
    in call order (and is still absent if its method was not called).  The
    documented example renders the three sources in call order. *)
Theorem accumulators_concatenate :
  forall (e : NinjaEdgeBuilder) (cs : list edge_call),
    edge_sources (do_edge_calls cs e)
    = accumulated (edge_sources e) (from_args cs)
    /\ edge_dependencies (do_edge_calls cs e)
       = accumulated (edge_dependencies e) (need_args cs)
    /\ edge_orderDeps (do_edge_calls cs e)
       = accumulated (edge_orderDeps e) (after_args cs)
    /\ rendered NinjaEdgeBuilder_write
         (NinjaEdgeBuilder_from (Many ["release"; "lint"])
            (NinjaEdgeBuilder_from (One "debug")
               (new_NinjaEdgeBuilder (One "dist"))))
       = "build dist: phony debug release lint" ++ LF.
Proof.
  intros e cs.
  destruct (do_edge_calls_accumulate cs e) as (Hs & Hd & Ho).
  repeat split; try assumption.
Qed.

(** *** Local overrides *)

Lemma has_key_cons k x l :
  has_key k (x :: l) = (String.eqb x k || has_key k l)%bool.
Proof. reflexivity. Qed.

Lemma keys_obj_define {V} k (v : V) (o : JSObject V) :
  map fst (obj_define k v o)
  = if has_key k (map fst o) then map fst o else (map fst o ++ [k])%list.
Proof.
  induction o as [|[k' v'] o IH]; [reflexivity|].
  cbn [obj_define map fst]. rewrite has_key_cons.
  destruct (String.eqb k' k) eqn:E; cbn [orb map fst]; [reflexivity|].
  rewrite IH. now destruct (has_key k (map fst o)).
Qed.

Lemma obj_get_define {V} k k' (v : V) (o : JSObject V) :
  obj_get k (obj_define k' v o)
  = if String.eqb k' k then Some v else obj_get k o.
Proof.
  induction o as [|[k0 v0] o IH]; cbn [obj_define obj_get].
  - reflexivity.
  - destruct (String.eqb k0 k') eqn:E0; cbn [obj_get].
    + apply String.eqb_eq in E0. subst k0.
      now destruct (String.eqb k' k).
    + rewrite IH. destruct (String.eqb k0 k) eqn:E1; [|reflexivity].
      apply String.eqb_eq in E1. subst k0.
      rewrite String.eqb_sym, E0. reflexivity.
Qed.

Lemma has_key_filter_neq k x l :
  String.eqb x k = false ->
  has_key k (filter (fun k' => negb (String.eqb k' x)) l) = has_key k l.
Proof.
  intros E. induction l as [|y l IH]; [reflexivity|].
  cbn [filter]. destruct (String.eqb y x) eqn:Eyx; cbn [negb].
  - rewrite has_key_cons, IH.
    apply String.eqb_eq in Eyx. subst y. now rewrite E.
  - now rewrite !has_key_cons, IH.
Qed.

Lemma has_key_first_occurrences k l :
  has_key k (first_occurrences l) = has_key k l.
Proof.
  induction l as [|x l IH]; [reflexivity|].
  cbn [first_occurrences]. rewrite !has_key_cons.
  destruct (String.eqb x k) eqn:E; [reflexivity|].
  cbn [orb]. now rewrite has_key_filter_neq.
Qed.

Lemma first_occurrences_snoc l k :
  first_occurrences (l ++ [k])
  = if has_key k l then first_occurrences l
    else (first_occurrences l ++ [k])%list.
Proof.
  induction l as [|x l IH]; [reflexivity|].
  cbn [app first_occurrences]. rewrite IH, has_key_cons.
  destruct (String.eqb x k) eqn:E; cbn [orb].
  - apply String.eqb_eq in E. subst x.
    destruct (has_key k l); [reflexivity|].
    rewrite filter_app. cbn [filter]. rewrite String.eqb_refl.
    cbn [negb]. now rewrite app_nil_r.
  - destruct (has_key k l); [reflexivity|].
    rewrite filter_app. cbn [filter].
    now rewrite (String.eqb_sym k x), E.
Qed.

Lemma filter_filter_comm {A} (p q : A -> bool) (m : list A) :
  filter p (filter q m) = filter q (filter p m).
Proof.
  induction m as [|y m IHm]; [reflexivity|].
  cbn [filter]. destruct (q y) eqn:Q, (p y) eqn:P; cbn [filter];
    rewrite ?Q, ?P, ?IHm; reflexivity.
Qed.

Lemma filter_filter_and {A} (p q : A -> bool) (m : list A) :
  filter p (filter q m) = filter (fun a => p a && q a)%bool m.
Proof.
  induction m as [|y m IHm]; [reflexivity|].
  cbn [filter]. destruct (q y) eqn:Q, (p y) eqn:P; cbn [filter andb];
    rewrite ?P, ?IHm; reflexivity.
Qed.

Lemma first_occurrences_filter (p : string -> bool) l :
  filter p (first_occurrences l) = first_occurrences (filter p l).
Proof.
  induction l as [|x l IH]; [reflexivity|].
  cbn [first_occurrences filter].
  assert (C : forall q : string -> bool,
             filter p (filter q (first_occurrences l))
             = filter q (first_occurrences (filter p l))).
  { intros q. rewrite <- IH. apply filter_filter_comm. }
  destruct (p x) eqn:P.
  - cbn [first_occurrences]. now rewrite C.
  - rewrite C.
    assert (N : forall m, (forall y, In y m -> p y = true) ->
                  filter (fun k' => negb (String.eqb k' x)) m = m).
    { induction m as [|y m IHm]; intros Hm; [reflexivity|].
      cbn [filter]. destruct (String.eqb y x) eqn:Eyx.
      - apply String.eqb_eq in Eyx. subst y.
        rewrite (Hm x (or_introl eq_refl)) in P. discriminate.
      - cbn [negb]. rewrite IHm; [reflexivity|].
        intros z Hz. apply Hm. now right. }
    apply N. intros y Hy. rewrite <- IH in Hy.
    now apply filter_In in Hy.
Qed.

Lemma NoDup_first_occurrences l : NoDup (first_occurrences l).
Proof.
  induction l as [|x l IH]; cbn [first_occurrences]; constructor.
  - intros H. apply filter_In in H. destruct H as [_ H].
    now rewrite String.eqb_refl in H.
  - now apply NoDup_filter.
Qed.

Lemma last_write_snoc {V} k k' (v : V) kvs :
  last_write k (kvs ++ [(k', v)])
  = if String.eqb k' k then Some v else last_write k kvs.
Proof.
  induction kvs as [|[k0 v0] kvs IH]; cbn [app last_write].
  - now destruct (String.eqb k' k).
  - rewrite IH. destruct (String.eqb k' k); [reflexivity|].
    reflexivity.
Qed.

Lemma obj_assign_all_snoc {V} kvs k (v : V) o :
  obj_assign_all (kvs ++ [(k, v)]) o = obj_assign k v (obj_assign_all kvs o).
Proof. unfold obj_assign_all. now rewrite fold_left_app. Qed.

(** The keys of an object filled by assignments are the assigned keys, less
    [__proto__], in the order of their first assignment. *)
Lemma keys_obj_assign_all {V} (kvs : list (string * V)) :
  map fst (obj_assign_all kvs [])
  = first_occurrences (filter not_proto (map fst kvs)).
Proof.
  induction kvs as [|[k v] kvs IH] using rev_ind; [reflexivity|].
  rewrite obj_assign_all_snoc, map_app, filter_app.
  cbn [map fst filter]. unfold obj_assign, not_proto at 2.
  destruct (String.eqb k "__proto__"); cbn [negb].
  - now rewrite app_nil_r.
  - rewrite keys_obj_define, first_occurrences_snoc, IH.
    now rewrite has_key_first_occurrences.
Qed.

(** Reading a key gives the value of its last assignment. *)
Lemma obj_get_assign_all {V} (kvs : list (string * V)) k :
  obj_get k (obj_assign_all kvs [])
  = if not_proto k then last_write k kvs else None.
Proof.
  induction kvs as [|[k' v] kvs IH] using rev_ind.
  - cbn. now destruct (not_proto k).
  - rewrite obj_assign_all_snoc, last_write_snoc. unfold obj_assign.
    destruct (String.eqb k' "__proto__") eqn:P.
    + rewrite IH. apply String.eqb_eq in P. subst k'.
      unfold not_proto. rewrite (String.eqb_sym "__proto__" k).
      now destruct (String.eqb k "__proto__").
    + rewrite obj_get_define, IH.
      destruct (String.eqb k' k) eqn:E; [|reflexivity].
      apply String.eqb_eq in E. subst k'.
      unfold not_proto. now rewrite P.
Qed.

(** *** The order of [Object.entries] *)

(** Two array indices with the same numeric value are the same key. *)
Lemma array_index_inj k1 k2 n :
  array_index k1 = Some n -> array_index k2 = Some n -> k1 = k2.
Proof.
  unfold array_index. intros H1 H2.
  destruct (NilEmpty.uint_of_string k1) as [d1|] eqn:E1; [|discriminate].
  destruct (NilEmpty.uint_of_string k2) as [d2|] eqn:E2; [|discriminate].
  destruct (Decimal.uint_eq_dec (Decimal.unorm d1) d1) as [N1|];
    [|discriminate].
  destruct (Decimal.uint_eq_dec (Decimal.unorm d2) d2) as [N2|];
    [|discriminate].
  destruct (N.of_uint d1 <? 2 ^ 32 - 1)%N; [|discriminate].
  destruct (N.of_uint d2 <? 2 ^ 32 - 1)%N; [|discriminate].
  assert (E : N.of_uint d1 = N.of_uint d2) by congruence.
  apply DecimalN.Unsigned.of_iff in E. rewrite N1, N2 in E. subst d2.
  apply NilEmpty.sus in E1. apply NilEmpty.sus in E2. congruence.
Qed.

Lemma index_value_inj k1 k2 :
  is_index k1 = true -> is_index k2 = true ->
  index_value k1 = index_value k2 -> k1 = k2.
Proof.
  unfold is_index, index_value. intros H1 H2 E.
  destruct (array_index k1) as [n1|] eqn:E1; [|discriminate].
  destruct (array_index k2) as [n2|] eqn:E2; [|discriminate].
  subst n2. exact (array_index_inj _ _ _ E1 E2).
Qed.

Lemma insert_by_index_perm {V} (kv : string * V) l :
  Permutation (insert_by_index kv l) (kv :: l).
Proof.
  induction l as [|kv' l IH]; cbn [insert_by_index]; [reflexivity|].
  destruct (index_value (fst kv) <=? index_value (fst kv'))%N;
    [reflexivity|].
  rewrite IH. apply perm_swap.
Qed.

Lemma sort_by_index_perm {V} (l : list (string * V)) :
  Permutation (sort_by_index l) l.
Proof.
  induction l as [|kv l IH]; cbn [sort_by_index fold_right]; [reflexivity|].
  fold (sort_by_index l). rewrite insert_by_index_perm. now constructor.
Qed.

Lemma insert_by_index_sorted {V} (kv : string * V) l :
  StronglySorted index_le l -> StronglySorted index_le (insert_by_index kv l).
Proof.
  induction 1 as [|kv' l Hs IH Hall]; cbn [insert_by_index].
  - repeat constructor.
  - destruct (N.leb_spec (index_value (fst kv)) (index_value (fst kv'))).
    + constructor; [now constructor|].
      constructor; [assumption|].
      eapply Forall_impl; [|exact Hall].
      intros b Hb. unfold index_le in *. lia.
    + constructor; [assumption|].
      eapply Permutation_Forall;
        [symmetry; apply insert_by_index_perm|].
      constructor; [unfold index_le; lia | assumption].
Qed.

Lemma sort_by_index_sorted {V} (l : list (string * V)) :
  StronglySorted index_le (sort_by_index l).
Proof.
  induction l as [|kv l IH]; cbn [sort_by_index fold_right];
    [constructor|].
  now apply insert_by_index_sorted.
Qed.

Lemma filter_partition_perm {A} (p : A -> bool) (l : list A) :
  Permutation (filter p l ++ filter (fun a => negb (p a)) l) l.
Proof.
  induction l as [|a l IH]; cbn [filter]; [reflexivity|].
  destruct (p a); cbn [negb app].
  - now constructor.
  - rewrite <- Permutation_middle. now constructor.
Qed.

Lemma Object_entries_perm {V} (o : JSObject V) :
  Permutation (Object_entries o) o.
Proof.
  unfold Object_entries. rewrite sort_by_index_perm.
  apply (filter_partition_perm (fun kv => is_index (fst kv))).
Qed.

Lemma filter_all {A} (p : A -> bool) (l : list A) :
  Forall (fun a => p a = true) l -> filter p l = l.
Proof.
  induction 1 as [|a l Ha _ IH]; cbn [filter]; [reflexivity|].
  now rewrite Ha, IH.
Qed.

Lemma filter_none {A} (p : A -> bool) (l : list A) :
  Forall (fun a => p a = false) l -> filter p l = [].
Proof.
  induction 1 as [|a l Ha _ IH]; cbn [filter]; [reflexivity|].
  now rewrite Ha.
Qed.

Lemma Forall_filter_true {A} (p : A -> bool) (l : list A) :
  Forall (fun a => p a = true) (filter p l).
Proof.
  apply Forall_forall. intros a Ha. now apply filter_In in Ha.
Qed.

Lemma sorted_indices_all_index {V} (o : JSObject V) :
  Forall (fun kv => is_index (fst kv) = true)
    (sort_by_index (filter (fun kv => is_index (fst kv)) o)).
Proof.
  eapply Permutation_Forall; [symmetry; apply sort_by_index_perm|].
  apply (Forall_filter_true (fun kv : string * V => is_index (fst kv))).
Qed.

(** The entries split into the array indices, which come first, and the
    other keys, which keep the creation order. *)
Lemma Object_entries_split {V} (o : JSObject V) :
  filter (fun kv => is_index (fst kv)) (Object_entries o)
  = sort_by_index (filter (fun kv => is_index (fst kv)) o)
  /\ filter (fun kv => negb (is_index (fst kv))) (Object_entries o)
     = filter (fun kv => negb (is_index (fst kv))) o.
Proof.
  unfold Object_entries. rewrite !filter_app. split.
  - rewrite (filter_all _ _ (sorted_indices_all_index o)).
    rewrite (filter_none (fun kv => is_index (fst kv))
               (filter (fun kv => negb (is_index (fst kv))) o));
      [apply app_nil_r|].
    apply Forall_forall. intros a Ha. apply filter_In in Ha.
    destruct Ha as [_ Ha]. now destruct (is_index (fst a)).
  - rewrite (filter_none (fun kv => negb (is_index (fst kv)))
               (sort_by_index _)).
    + cbn [app]. apply filter_all.
      apply (Forall_filter_true
               (fun kv : string * V => negb (is_index (fst kv)))).
    + eapply Forall_impl; [|apply sorted_indices_all_index].
      intros a Ha. cbn beta in Ha. now rewrite Ha.
Qed.

Lemma sorted_strictly {V} (l : list (string * V)) :
  NoDup (map fst l) ->
  Forall (fun kv => is_index (fst kv) = true) l ->
  StronglySorted index_le l -> StronglySorted index_lt l.
Proof.
  intros Hnd Hidx Hs. induction Hs as [|a l Hs IH Hall]; [constructor|].
  cbn [map] in Hnd. inversion Hnd as [|? ? Hnotin Hnd']. subst.
  inversion Hidx as [|? ? Ha Hidx']. subst.
  constructor; [now apply IH|].
  apply Forall_forall. intros b Hb.
  pose proof (proj1 (Forall_forall _ _) Hall b Hb) as Hle.
  pose proof (proj1 (Forall_forall _ _) Hidx' b Hb) as Hbi.
  unfold index_le in Hle. unfold index_lt.
  destruct (N.eq_dec (index_value (fst a)) (index_value (fst b))) as [E|];
    [|lia].
  exfalso. apply Hnotin.
  rewrite (index_value_inj _ _ Ha Hbi E). now apply in_map.
Qed.

Lemma In_obj_get {V} (o : JSObject V) k (v : V) :
  NoDup (map fst o) -> (In (k, v) o <-> obj_get k o = Some v).
Proof.
  induction o as [|[k' v'] o IH]; cbn [map fst obj_get In]; intros Hnd.
  - split; [intros [] | discriminate].
  - inversion Hnd as [|? ? Hnotin Hnd']. subst.
    destruct (String.eqb_spec k' k) as [->|Hne].
    + split.
      * intros [E|Hin]; [now inversion E|].
        exfalso. apply Hnotin.
        change k with (fst (k, v)). now apply in_map.
      * intros E. left. now inversion E.
    + rewrite <- (IH Hnd'). split.
      * intros [E|Hin]; [inversion E; contradiction | assumption].
      * now right.
Qed.

Lemma edge_assigns_calls (cs : list edge_call) :
  forall e : NinjaEdgeBuilder,
    edge_assigns (do_edge_calls cs e)
    = obj_assign_all (assign_args cs) (edge_assigns e).
Proof.
  induction cs as [|c cs IH]; intros e; [reflexivity|].
  change (do_edge_calls (c :: cs) e)
    with (do_edge_calls cs (do_edge_call c e)).
  rewrite IH. now destruct c.
Qed.

(** The entries of the overrides of an edge after any sequence of calls, in
    terms of the model of the object that holds them. *)
Lemma entries_after_assigns :
  forall (targets : string_or_array) (cs : list edge_call),
    let e := do_edge_calls cs (new_NinjaEdgeBuilder targets) in
    let writes := assign_args cs in
    let entries := Object_entries (edge_assigns e) in
    let indexed := filter (fun kv => is_index (fst kv)) entries in
    let named := filter (fun kv => negb (is_index (fst kv))) entries in
    NoDup (map fst entries)
    /\ (forall k v,
          In (k, v) entries
          <-> not_proto k = true /\ last_write k writes = Some v)
    /\ entries = (indexed ++ named)%list
    /\ StronglySorted index_lt indexed
    /\ map fst named
       = first_occurrences
           (filter (fun k => negb (is_index k) && not_proto k)%bool
              (map fst writes))
    /\ rendered NinjaEdgeBuilder_write e
       = ("build " ++ Array_join " " (edge_targets e) ++ ": " ++ edge_rule e)
         ++ clause_if_present " " (edge_sources e)
         ++ clause_if_present " | " (edge_dependencies e)
         ++ clause_if_present " || " (edge_orderDeps e)
         ++ String.concat "" (map override_line entries)
         ++ LF
         ++ opt_text (edge_pool e) (fun p => "  pool = " ++ p ++ LF).
Proof.
  intros targets cs e writes entries indexed named.
  assert (Ho : edge_assigns e = obj_assign_all writes []).
  { unfold e, writes. now rewrite edge_assigns_calls. }
  assert (Hkeys : NoDup (map fst (edge_assigns e))).
  { rewrite Ho, keys_obj_assign_all. apply NoDup_first_occurrences. }
  assert (Hperm : Permutation entries (edge_assigns e))
    by apply Object_entries_perm.
  destruct (Object_entries_split (edge_assigns e)) as [Hidx Hnamed].
  fold entries in Hidx, Hnamed. fold indexed in Hidx. fold named in Hnamed.
  split; [|split; [|split; [|split; [|split]]]].
  - eapply Permutation_NoDup; [|exact Hkeys].
    symmetry. now apply Permutation_map.
  - intros k v. split.
    + intros Hin. apply (Permutation_in _ Hperm) in Hin.
      apply (In_obj_get _ _ _ Hkeys) in Hin.
      rewrite Ho, obj_get_assign_all in Hin.
      destruct (not_proto k); [now split | discriminate].
    + intros [Hp Hw]. apply (Permutation_in _ (Permutation_sym Hperm)).
      apply (In_obj_get _ _ _ Hkeys).
      now rewrite Ho, obj_get_assign_all, Hp.
  - rewrite Hidx, Hnamed. reflexivity.
  - rewrite Hidx. apply sorted_strictly.
    + eapply Permutation_NoDup.
      * symmetry. apply Permutation_map. apply sort_by_index_perm.
      * assert (F : forall l : list (string * string_or_number),
                  NoDup (map fst l) ->
                  NoDup (map fst (filter (fun kv => is_index (fst kv)) l))).
        { induction l as [|a l IH]; cbn [map filter]; intros H;
            [constructor|].
          inversion H as [|? ? Hn H']. subst.
          destruct (is_index (fst a)); [|now apply IH].
          cbn [map]. constructor; [|now apply IH].
          intros Hin. apply Hn. apply in_map_iff in Hin.
          destruct Hin as (b & Eb & Hb). apply filter_In in Hb.
          rewrite <- Eb. apply in_map. tauto. }
        now apply F.
    + apply sorted_indices_all_index.
    + apply sort_by_index_sorted.
  - rewrite Hnamed.
    assert (F : forall l : list (string * string_or_number),
              map fst (filter (fun kv => negb (is_index (fst kv))) l)
              = filter (fun k => negb (is_index k)) (map fst l)).
    { induction l as [|a l IH]; cbn [map filter]; [reflexivity|].
      destruct (is_index (fst a)); cbn [negb map]; now rewrite IH. }
    rewrite F, Ho, keys_obj_assign_all, first_occurrences_filter.
    now rewrite filter_filter_and.
  - apply rendered_edge.
Qed.

Lemma last_write_In {V} k (v : V) kvs :
  last_write k kvs = Some v -> In k (map fst kvs).
Proof.
  induction kvs as [|[k' v'] kvs IH]; cbn [last_write map fst In];
    [discriminate|].
  destruct (last_write k kvs) as [w|].
  - intros E. right. now apply IH.
  - destruct (String.eqb_spec k' k) as [->|_]; [now left | discriminate].
Qed.

Lemma assign_args_not_proto (cs : list edge_call) :
  (forall name value,
     In (Edge_assign name value) cs -> to_text name <> "__proto__") ->
  Forall (fun k => not_proto k = true) (map fst (assign_args cs)).
Proof.
  induction cs as [|c cs IH]; intros H; [constructor|].
  assert (H' : forall name value,
             In (Edge_assign name value) cs -> to_text name <> "__proto__").
  { intros name value Hin. apply (H name value). now right. }
  destruct c; cbn [assign_args map fst]; try (now apply IH).
  constructor; [|now apply IH].
  unfold not_proto. apply negb_true_iff. apply String.eqb_neq.
  apply (H name value). now left.
Qed.

(** C6, as amended.  After any sequence of calls on a fresh edge in which no
    override is assigned under a name whose text is [__proto__], the
    overrides that rendering iterates have unique keys; a key is bound to the
    value of its last [assign]; the keys that are array indices come first,
    in ascending numeric order, and the other keys follow in the order of
    their first [assign]. *)
Theorem overrides_order :
  forall (targets : string_or_array) (cs : list edge_call),
    (forall name value,
       In (Edge_assign name value) cs -> to_text name <> "__proto__") ->
    let e := do_edge_calls cs (new_NinjaEdgeBuilder targets) in
    let writes := assign_args cs in
    let entries := Object_entries (edge_assigns e) in
    let indexed := filter (fun kv => is_index (fst kv)) entries in
    let named := filter (fun kv => negb (is_index (fst kv))) entries in
    NoDup (map fst entries)
    /\ (forall k v, In (k, v) entries <-> last_write k writes = Some v)
    /\ entries = (indexed ++ named)%list
    /\ StronglySorted index_lt indexed
    /\ map fst named
       = first_occurrences
           (filter (fun k => negb (is_index k)) (map fst writes))
    /\ rendered NinjaEdgeBuilder_write e
       = ("build " ++ Array_join " " (edge_targets e) ++ ": " ++ edge_rule e)
         ++ clause_if_present " " (edge_sources e)
         ++ clause_if_present " | " (edge_dependencies e)
         ++ clause_if_present " || " (edge_orderDeps e)
         ++ String.concat "" (map override_line entries)
         ++ LF
         ++ opt_text (edge_pool e) (fun p => "  pool = " ++ p ++ LF).
Proof.
  intros targets cs Hcs e writes entries indexed named.
  pose proof (assign_args_not_proto cs Hcs) as Hnp. fold writes in Hnp.
  destruct (entries_after_assigns targets cs)
    as (Hnd & Hin & Hsplit & Hsorted & Hnamed & Htext).
  fold e in Hnd, Hin, Hsplit, Hsorted, Hnamed, Htext.
  fold writes in Hin, Hnamed.
  fold entries in Hnd, Hin, Hsplit, Hsorted, Hnamed, Htext.
  fold indexed in Hsplit, Hsorted. fold named in Hsplit, Hnamed.
  split; [exact Hnd|]. split; [|split; [exact Hsplit|]].
  - intros k v. rewrite (Hin k v). split; [now intros [_ H]|].
    intros H. split; [|exact H].
    apply last_write_In in H.
    exact (proj1 (Forall_forall _ _) Hnp k H).
  - split; [exact Hsorted|]. split; [|exact Htext].
    rewrite Hnamed. f_equal. clear - Hnp.
    induction Hnp as [|k l Hk _ IH]; [reflexivity|].
    cbn [filter]. rewrite Hk, IH. now rewrite andb_true_r.
Qed.

(** ** The builder *)

Lemma set_rules_same (this : NinjaBuilder) :
  set_rules (ninja_rules this) this = this.
Proof. now destruct this. Qed.

Lemma set_edges_same (this : NinjaBuilder) :
  set_edges (ninja_edges this) this = this.
Proof. now destruct this. Qed.

Lemma set_variables_same (this : NinjaBuilder) :
  set_variables (ninja_variables this) this = this.
Proof. now destruct this. Qed.

Lemma for_of_rules (this : NinjaBuilder) (stream : Stream) :
  for_of ninja_rules set_rules NinjaRuleBuilder_write this stream
  = (tt, this,
     (stream
      ++ List.concat
           (map (chunks_of NinjaRuleBuilder_write) (ninja_rules this)))%list).
Proof.
  exact (for_of_writes _ _ _ _ set_rules_same NinjaRuleBuilder_write_only
           this stream).
Qed.

Lemma for_of_edges (this : NinjaBuilder) (stream : Stream) :
  for_of ninja_edges set_edges NinjaEdgeBuilder_write this stream
  = (tt, this,
     (stream
      ++ List.concat
           (map (chunks_of NinjaEdgeBuilder_write) (ninja_edges this)))%list).
Proof.
  exact (for_of_writes _ _ _ _ set_edges_same NinjaEdgeBuilder_write_only
           this stream).
Qed.

Lemma for_of_variables (this : NinjaBuilder) (stream : Stream) :
  for_of ninja_variables set_variables NinjaAssignBuilder_write this stream
  = (tt, this,
     (stream
      ++ List.concat
           (map (chunks_of NinjaAssignBuilder_write)
              (ninja_variables this)))%list).
Proof.
  exact (for_of_writes _ _ _ _ set_variables_same
           NinjaAssignBuilder_write_only this stream).
Qed.

Ltac run_loops :=
  repeat (first [rewrite for_of_rules | rewrite for_of_edges
                | rewrite for_of_variables];
          cbn -[String.append LF contents for_of chunks_of]).

Lemma NinjaBuilder_saveToStream_only :
  writes_only NinjaBuilder_saveToStream (chunks_of NinjaBuilder_saveToStream).
Proof.
  intros this stream. unfold chunks_of at 1.
  unfold NinjaBuilder_saveToStream.
  unfold stream_after, bind, field, stream_write, when_defined, ret.
  destruct this as [[v|] [b|] edges rules variables ec rc [h|] [d|]];
    cbn -[String.append LF contents for_of chunks_of];
    run_loops; rewrite <- ?app_assoc; reflexivity.
Qed.

Lemma rendered_save (n : NinjaBuilder) :
  rendered NinjaBuilder_saveToStream n = save_text n.
Proof.
  unfold rendered, NinjaBuilder_saveToStream, save_text.
  unfold stream_after, bind, field, stream_write, when_defined, ret.
  destruct n as [[v|] [b|] edges rules variables ec rc [h|] [d|]];
    cbn -[String.append LF contents for_of chunks_of rendered];
    run_loops;
    repeat (first [rewrite contents_app | rewrite contents_concat_map
                  | rewrite contents_cons | rewrite contents_nil]);
    string_norm.
Qed.

Lemma list_update_map {C D} (g : C -> D) i c (l : list C) x :
  nth_error l i = Some x -> g c = g x ->
  map g (list_update i c l) = map g l.
Proof.
  revert i. induction l as [|y l IH]; intros [|i] H E; cbn in *;
    try discriminate.
  - inversion H. now rewrite E.
  - now rewrite (IH i).
Qed.

Lemma on_clause_map {C D} (g : C -> D) (f : C -> C) h (l : list C) :
  (forall c, g (f c) = g c) -> map g (on_clause h f l) = map g l.
Proof.
  intros Hf. unfold on_clause.
  destruct (nth_error l h) as [x|] eqn:E; [|reflexivity].
  now apply (list_update_map g h (f x) l x).
Qed.

(** What a script leaves in a builder: the clauses it registered follow, in
    the order of the factory calls, those that were there; fluent calls on
    the clauses change neither the number nor the order nor the identity
    (name, targets) of the clauses. *)
Lemma do_calls_registers (cs : list ninja_call) :
  forall n : NinjaBuilder,
    let n' := do_calls cs n in
    ninja_version n' = ninja_version n
    /\ ninja_buildDir n' = ninja_buildDir n
    /\ ninja_headerValue n' = overwritten (ninja_headerValue n) (last_header cs)
    /\ ninja_defaultRule n'
       = overwritten (ninja_defaultRule n) (last_default cs)
    /\ map rule_name (ninja_rules n')
       = (map rule_name (ninja_rules n) ++ registered_rules cs)%list
    /\ map edge_targets (ninja_edges n')
       = (map edge_targets (ninja_edges n)
          ++ map as_array (registered_edges cs))%list
    /\ map (fun v => (assign_name v, assign_value v)) (ninja_variables n')
       = (map (fun v => (assign_name v, assign_value v)) (ninja_variables n)
          ++ registered_variables cs)%list.
Proof.
  induction cs as [|c cs IH]; intros n.
  - cbn. now rewrite !app_nil_r.
  - cbn zeta.
    change (do_calls (c :: cs) n) with (do_calls cs (do_call c n)).
    destruct (IH (do_call c n)) as (Hv & Hb & Hh & Hd & Hr & He & Ha).
    rewrite Hv, Hb, Hh, Hd, Hr, He, Ha. clear.
    cbn [last_header last_default].
    destruct (last_header cs), (last_default cs);
      destruct c as [value|name|name value|name|targets|h rc|h ec];
      cbn [do_call NinjaBuilder_header NinjaBuilder_byDefault
           NinjaBuilder_assign NinjaBuilder_rule NinjaBuilder_edge
           set_rules set_edges set_variables snd overwritten
           ninja_version ninja_buildDir ninja_headerValue ninja_defaultRule
           ninja_rules ninja_edges ninja_variables
           registered_rules registered_edges registered_variables];
      rewrite ?map_app, <- ?app_assoc;
      rewrite ?(on_clause_map rule_name), ?(on_clause_map edge_targets);
      try (intros x; destruct rc; reflexivity);
      try (intros x; destruct ec; reflexivity);
      repeat split; try (destruct targets; reflexivity).
Qed.







Lemma do_calls_counts (cs : list ninja_call) :
  forall n : NinjaBuilder,
    ninja_ruleCount (do_calls cs n)
    = ninja_ruleCount n + length (registered_rules cs)
    /\ ninja_edgeCount (do_calls cs n)
       = ninja_edgeCount n + length (registered_edges cs).
Proof.
  induction cs as [|c cs IH]; intros n.
  - cbn. lia.
  - change (do_calls (c :: cs) n) with (do_calls cs (do_call c n)).
    destruct (IH (do_call c n)) as [Hr He]. rewrite Hr, He.
    destruct c; cbn; lia.
Qed.

(** The two counters of a builder count the calls of [rule] and of [edge],
    and are the lengths of the two arrays. *)
Theorem counts_track_registrations :
  forall (version buildDir : option string) (cs : list ninja_call),
    let n := do_calls cs (new_NinjaBuilder version buildDir) in
    NinjaBuilder_ruleCount n = length (registered_rules cs)
    /\ NinjaBuilder_edgeCount n = length (registered_edges cs)
    /\ NinjaBuilder_ruleCount n = length (ninja_rules n)
    /\ NinjaBuilder_edgeCount n = length (ninja_edges n).
Proof.
  intros version buildDir cs n.
  destruct (do_calls_counts cs (new_NinjaBuilder version buildDir))
    as [Hr He].
  destruct (do_calls_registers cs (new_NinjaBuilder version buildDir))
    as (_ & _ & _ & _ & Hrules & Hedges & _).
  fold n in Hr, He, Hrules, Hedges.
  apply (f_equal (@length _)) in Hrules, Hedges.
  rewrite length_app, !length_map in Hrules, Hedges.
  cbn in Hr, He, Hrules, Hedges.
  rewrite length_map in Hedges.
  unfold NinjaBuilder_ruleCount, NinjaBuilder_edgeCount.
  repeat split; congruence.
Qed.

(** C1. Whatever the order in which a script called [header], [byDefault],
    the three factory methods and the methods of the clauses, [saveToStream]
    appends to the stream: the header and two newlines if a header was set;
    the required version line if a version was given; the [builddir=] line,
    with no space around the equal sign, if a build directory was given; for
    every rule, in the order of the calls of [rule], the lines of the rule's
    render algorithm; for every edge, in the order of the calls of [edge],
    the lines of the edge's render algorithm; for every binding, in the order
    of the calls of [assign], its [<name> = <value>] line; the [default] line
    if a default was set. *)
Theorem saveToStream_order :
  forall (version buildDir : option string) (cs : list ninja_call)
         (stream : Stream),
    let n := do_calls cs (new_NinjaBuilder version buildDir) in
    contents (stream_after (NinjaBuilder_saveToStream n stream))
    = contents stream
      ++ opt_text (ninja_headerValue n) (fun h => h ++ LF ++ LF)
      ++ opt_text (ninja_version n)
           (fun v => "ninja_required_version = " ++ v ++ LF)
      ++ opt_text (ninja_buildDir n) (fun d => "builddir=" ++ d ++ LF)
      ++ String.concat ""
           (map rule_text_spec (ninja_rules n))
      ++ String.concat ""
           (map edge_text (ninja_edges n))
      ++ String.concat ""
           (map assign_text (ninja_variables n))
      ++ opt_text (ninja_defaultRule n) (fun d => "default " ++ d ++ LF)
    /\ ninja_headerValue n = last_header cs
    /\ ninja_version n = version
    /\ ninja_buildDir n = buildDir
    /\ map rule_name (ninja_rules n) = registered_rules cs
    /\ map edge_targets (ninja_edges n) = map as_array (registered_edges cs)
    /\ map (fun v => (assign_name v, assign_value v)) (ninja_variables n)
       = registered_variables cs
    /\ ninja_defaultRule n = last_default cs.
Proof.
  intros version buildDir cs stream n.
  destruct (do_calls_registers cs (new_NinjaBuilder version buildDir))
    as (Hv & Hb & Hh & Hd & Hr & He & Ha).
  fold n in Hv, Hb, Hh, Hd, Hr, He, Ha. cbn in Hv, Hb, Hh, Hd, Hr, He, Ha.
  split.
  - rewrite (writes_only_contents _ _ NinjaBuilder_saveToStream_only).
    rewrite rendered_save. unfold save_text.
    rewrite (map_ext _ _ rendered_rule), (map_ext _ _ rendered_edge),
      (map_ext _ _ rendered_assign).
    reflexivity.
  - repeat split; try assumption.
    + rewrite Hh. now destruct (last_header cs).
    + rewrite Hd. now destruct (last_default cs).
Qed.

(** C8. [saveToStream] leaves the builder, with all its clauses, as it found
    it, and a second call made on the builder it left writes the same chunks,
    hence the same text, as the first. *)
Theorem saveToStream_twice :
  forall (n : NinjaBuilder) (s1 s2 : Stream),
    let first := NinjaBuilder_saveToStream n s1 in
    let second := NinjaBuilder_saveToStream (this_after first) s2 in
    this_after first = n
    /\ this_after second = n
    /\ stream_after first
       = (s1 ++ chunks_of NinjaBuilder_saveToStream n)%list
    /\ stream_after second
       = (s2 ++ chunks_of NinjaBuilder_saveToStream n)%list
    /\ contents (stream_after first)
       = contents s1 ++ rendered NinjaBuilder_saveToStream n
    /\ contents (stream_after second)
       = contents s2 ++ rendered NinjaBuilder_saveToStream n.
Proof.
  intros n s1 s2 first second.
  assert (F : first = (tt, n, (s1 ++ chunks_of NinjaBuilder_saveToStream n)%list))
    by apply NinjaBuilder_saveToStream_only.
  assert (S : second
              = (tt, n, (s2 ++ chunks_of NinjaBuilder_saveToStream n)%list)).
  { unfold second. rewrite F. apply NinjaBuilder_saveToStream_only. }
  rewrite F, S. unfold this_after, stream_after, rendered. cbn [fst snd].
  rewrite !contents_app. repeat split.
Qed.

(** ** How the fluent calls compose *)

Lemma do_rule_calls_fields (cs : list rule_call) :
  forall r : NinjaRuleBuilder,
    rule_name (do_rule_calls cs r) = rule_name r
    /\ rule_command (do_rule_calls cs r)
       = match last_some run_arg cs with
         | Some command => command
         | None => rule_command r
         end
    /\ rule_desc (do_rule_calls cs r)
       = overwritten (rule_desc r) (last_some description_arg cs)
    /\ rule_dependencyFile (do_rule_calls cs r)
       = overwritten (rule_dependencyFile r) (last_some depfile_arg cs)
    /\ rule_doRestat (do_rule_calls cs r)
       = overwritten (rule_doRestat r) (last_some restat_arg cs)
    /\ rule_isGenerator (do_rule_calls cs r)
       = overwritten (rule_isGenerator r) (last_some generator_arg cs)
    /\ rule_pool (do_rule_calls cs r)
       = overwritten (rule_pool r) (last_some rule_pool_arg cs).
Proof.
  induction cs as [|c cs IH]; intros r; [repeat split|].
  change (do_rule_calls (c :: cs) r)
    with (do_rule_calls cs (do_rule_call c r)).
  destruct (IH (do_rule_call c r)) as (Hn & Hc & Hd & Hf & Hr & Hg & Hp).
  rewrite Hn, Hc, Hd, Hf, Hr, Hg, Hp. clear.
  cbn [last_some].
  destruct c; cbn;
    destruct (last_some run_arg cs), (last_some description_arg cs),
      (last_some depfile_arg cs), (last_some restat_arg cs),
      (last_some generator_arg cs), (last_some rule_pool_arg cs);
    repeat split.
Qed.

(** Whatever the sequence of calls on a new rule, and however the calls of
    different methods are interleaved, the rule ends with its name unchanged
    and each field holding the argument of the last call of its own method:
    the empty command, or no value, when the method was not called. *)
Theorem rule_calls_last_wins :
  forall (name : string) (cs : list rule_call),
    let r := do_rule_calls cs (new_NinjaRuleBuilder name) in
    rule_name r = name
    /\ rule_command r
       = match last_some run_arg cs with
         | Some command => command
         | None => ""
         end
    /\ rule_desc r = last_some description_arg cs
    /\ rule_dependencyFile r = last_some depfile_arg cs
    /\ rule_doRestat r = last_some restat_arg cs
    /\ rule_isGenerator r = last_some generator_arg cs
    /\ rule_pool r = last_some rule_pool_arg cs.
Proof.
  intros name cs r.
  destruct (do_rule_calls_fields cs (new_NinjaRuleBuilder name))
    as (Hn & Hc & Hd & Hf & Hr & Hg & Hp).
  fold r in Hn, Hc, Hd, Hf, Hr, Hg, Hp.
  rewrite Hn, Hc, Hd, Hf, Hr, Hg, Hp. cbn.
  destruct (last_some description_arg cs), (last_some depfile_arg cs),
    (last_some restat_arg cs), (last_some generator_arg cs),
    (last_some rule_pool_arg cs); repeat split.
Qed.

Lemma do_edge_calls_fields (cs : list edge_call) :
  forall e : NinjaEdgeBuilder,
    edge_targets (do_edge_calls cs e) = edge_targets e
    /\ edge_rule (do_edge_calls cs e)
       = match last_some using_arg cs with
         | Some rule => rule
         | None => edge_rule e
         end
    /\ edge_pool (do_edge_calls cs e)
       = overwritten (edge_pool e) (last_some edge_pool_arg cs).
Proof.
  induction cs as [|c cs IH]; intros e; [repeat split|].
  change (do_edge_calls (c :: cs) e)
    with (do_edge_calls cs (do_edge_call c e)).
  destruct (IH (do_edge_call c e)) as (Ht & Hr & Hp).
  rewrite Ht, Hr, Hp. clear. cbn [last_some].
  destruct c; cbn;
    destruct (last_some using_arg cs), (last_some edge_pool_arg cs);
    repeat split.
Qed.

(** Whatever the sequence of calls on a new edge, its targets stay those it
    was constructed with, its rule is the argument of the last [using], or
    [phony] when there was none, and its pool is the argument of the last
    [pool], or unset when there was none. *)
Theorem edge_calls_last_wins :
  forall (targets : string_or_array) (cs : list edge_call),
    let e := do_edge_calls cs (new_NinjaEdgeBuilder targets) in
    edge_targets e = as_array targets
    /\ edge_rule e
       = match last_some using_arg cs with
         | Some rule => rule
         | None => "phony"
         end
    /\ edge_pool e = last_some edge_pool_arg cs.
Proof.
  intros targets cs e.
  destruct (do_edge_calls_fields cs (new_NinjaEdgeBuilder targets))
    as (Ht & Hr & Hp).
  fold e in Ht, Hr, Hp. rewrite Ht, Hr, Hp. cbn.
  destruct targets, (last_some edge_pool_arg cs); repeat split.
Qed.

(** A call of [from], [need] or [after] with a string is the call with the
    array of that one string; two calls in a row of one of them are the call
    with the two arrays put end to end; and calls of two different ones can
    be exchanged.  So only the order of the calls of each method matters. *)
Theorem accumulating_calls_compose :
  forall e : NinjaEdgeBuilder,
    (forall s : string,
       NinjaEdgeBuilder_from (One s) e = NinjaEdgeBuilder_from (Many [s]) e
       /\ NinjaEdgeBuilder_need (One s) e = NinjaEdgeBuilder_need (Many [s]) e
       /\ NinjaEdgeBuilder_after (One s) e
          = NinjaEdgeBuilder_after (Many [s]) e)
    /\ (forall a b : list string,
          NinjaEdgeBuilder_from (Many b) (NinjaEdgeBuilder_from (Many a) e)
          = NinjaEdgeBuilder_from (Many (a ++ b)%list) e
          /\ NinjaEdgeBuilder_need (Many b) (NinjaEdgeBuilder_need (Many a) e)
             = NinjaEdgeBuilder_need (Many (a ++ b)%list) e
          /\ NinjaEdgeBuilder_after (Many b)
               (NinjaEdgeBuilder_after (Many a) e)
             = NinjaEdgeBuilder_after (Many (a ++ b)%list) e)
    /\ (forall x y : string_or_array,
          NinjaEdgeBuilder_from x (NinjaEdgeBuilder_need y e)
          = NinjaEdgeBuilder_need y (NinjaEdgeBuilder_from x e)
          /\ NinjaEdgeBuilder_from x (NinjaEdgeBuilder_after y e)
             = NinjaEdgeBuilder_after y (NinjaEdgeBuilder_from x e)
          /\ NinjaEdgeBuilder_need x (NinjaEdgeBuilder_after y e)
             = NinjaEdgeBuilder_after y (NinjaEdgeBuilder_need x e)).
Proof.
  intros e. split; [|split].
  - intros s. repeat split.
  - intros a b.
    unfold NinjaEdgeBuilder_from, NinjaEdgeBuilder_need,
      NinjaEdgeBuilder_after, push_onto.
    cbn [edge_targets edge_assigns edge_rule edge_sources edge_dependencies
         edge_orderDeps edge_pool].
    now rewrite !app_assoc.
  - intros x y. repeat split.
Qed.

(** A call of [from], [need] or [after] with the empty array leaves the edge
    exactly as it was when its accumulator is already there, and changes the
    edge when it is not: the empty call shows only as the first call of its
    method. *)
Theorem empty_call_noop_iff :
  forall e : NinjaEdgeBuilder,
    (NinjaEdgeBuilder_from (Many []) e = e <-> edge_sources e <> None)
    /\ (NinjaEdgeBuilder_need (Many []) e = e
        <-> edge_dependencies e <> None)
    /\ (NinjaEdgeBuilder_after (Many []) e = e <-> edge_orderDeps e <> None).
Proof.
  intros [targets assigns rule [a|] [b|] [c|] pool];
    unfold NinjaEdgeBuilder_from, NinjaEdgeBuilder_need,
      NinjaEdgeBuilder_after, push_onto;
    cbn [edge_targets edge_assigns edge_rule edge_sources edge_dependencies
         edge_orderDeps edge_pool];
    rewrite ?app_nil_r;
    repeat split; intros H; try reflexivity; try discriminate;
    try (now contradiction H).
Qed.

(** *** Overrides *)

Lemma In_obj_define {V} k (v : V) (o : JSObject V) :
  In (k, v) (obj_define k v o).
Proof.
  induction o as [|[k' v'] o IH]; cbn [obj_define]; [now left|].
  destruct (String.eqb_spec k' k) as [->|_]; [now left | now right].
Qed.

Lemma obj_define_twice {V} k (v v' : V) (o : JSObject V) :
  obj_define k v (obj_define k v' o) = obj_define k v o.
Proof.
  induction o as [|[k0 v0] o IH]; cbn [obj_define].
  - now rewrite String.eqb_refl.
  - destruct (String.eqb k0 k) eqn:E; cbn [obj_define]; rewrite E;
      [reflexivity | now rewrite IH].
Qed.

(** On any edge, an override assigned under a name other than [__proto__] is
    among the overrides that rendering iterates, and it replaces the override
    of the call made just before it when that call was under a name with the
    same text, be the one a number and the other a string: the edge is then
    as if the call just before had not been made. *)
Theorem edge_assign_binds :
  forall (e : NinjaEdgeBuilder) (name value : string_or_number),
    not_proto (to_text name) = true ->
    In (to_text name, value)
      (Object_entries (edge_assigns (NinjaEdgeBuilder_assign name value e)))
    /\ (forall name' value' : string_or_number,
          to_text name' = to_text name ->
          NinjaEdgeBuilder_assign name value
            (NinjaEdgeBuilder_assign name' value' e)
          = NinjaEdgeBuilder_assign name value e).
Proof.
  intros e name value Hp. unfold not_proto in Hp.
  apply negb_true_iff in Hp. split.
  - apply (Permutation_in _ (Permutation_sym (Object_entries_perm _))).
    cbn [NinjaEdgeBuilder_assign edge_assigns]. unfold obj_assign.
    rewrite Hp. apply In_obj_define.
  - intros name' value' E. unfold NinjaEdgeBuilder_assign.
    cbn [edge_targets edge_assigns edge_rule edge_sources edge_dependencies
         edge_orderDeps edge_pool].
    f_equal. unfold obj_assign. rewrite E, Hp. apply obj_define_twice.
Qed.

(** ** More on the escaper *)

Lemma escape_app (s1 s2 : string) :
  escape (s1 ++ s2) = escape s1 ++ escape s2.
Proof.
  induction s1 as [|c s1 IH]; [reflexivity|].
  cbn [String.append]. rewrite !escape_cons, IH.
  now destruct (special c).
Qed.

Lemma count_special_le (s : string) : count_special s <= String.length s.
Proof.
  induction s as [|c s IH]; cbn [count_special String.length]; [lia|].
  destruct (special c); lia.
Qed.

(** Escaping goes through concatenation, so a path may be escaped piece by
    piece; and it at most doubles the length of a string. *)
Theorem escape_concatenates :
  (forall s1 s2 : string, escape (s1 ++ s2) = escape s1 ++ escape s2)
  /\ (forall s : string,
        String.length s <= String.length (escape s) <= 2 * String.length s).
Proof.
  split; [exact escape_app|].
  intros s. rewrite escape_length. pose proof (count_special_le s). lia.
Qed.

Lemma unjoin_escape_app (t rest : string) :
  unjoin (escape t ++ rest)
  = (t ++ fst (unjoin rest), snd (unjoin rest)).
Proof.
  induction t as [|c t IH].
  - cbn. now destruct (unjoin rest).
  - rewrite escape_cons. unfold special, in_class. cbn [existsb].
    destruct (Ascii.eqb c " ") eqn:E1, (Ascii.eqb c ":") eqn:E2,
      (Ascii.eqb c "$") eqn:E3;
      cbn [orb String.append unjoin]; rewrite ?E1, ?E3;
      try change (Ascii.eqb "$" "$") with true; cbv iota;
      rewrite IH; reflexivity.
Qed.

Lemma unjoin_joined (t : string) (ts : list string) :
  unjoin (Array_join " " (map escape (t :: ts))) = (t, ts).
Proof.
  revert t. induction ts as [|t' ts IH]; intros t.
  - cbn [map Array_join].
    rewrite <- (string_app_nil_r (escape t)), unjoin_escape_app.
    cbn. now rewrite string_app_nil_r.
  - change (Array_join " " (map escape (t :: t' :: ts)))
      with (escape t ++ " " ++ Array_join " " (map escape (t' :: ts))).
    rewrite unjoin_escape_app.
    change (unjoin (" " ++ Array_join " " (map escape (t' :: ts))))
      with (let '(name, names) :=
              unjoin (Array_join " " (map escape (t' :: ts))) in
            (EmptyString, name :: names)).
    rewrite IH. cbn. now rewrite string_app_nil_r.
Qed.

(** Names that were escaped can be joined with spaces, as the build line of
    an edge joins its targets, without being confused: two non-empty lists of
    names whose escaped forms join to the same text are the same list. *)
Theorem joined_escaped_names_injective :
  forall ts1 ts2 : list string,
    ts1 <> [] -> ts2 <> [] ->
    Array_join " " (map escape ts1) = Array_join " " (map escape ts2) ->
    ts1 = ts2.
Proof.
  intros [|t1 ts1] [|t2 ts2] H1 H2 E; try contradiction.
  apply (f_equal unjoin) in E. rewrite !unjoin_joined in E.
  now inversion E.
Qed.

Lemma do_edge_calls_with_targets (cs : list edge_call) :
  forall (targets : list string) (e : NinjaEdgeBuilder),
    do_edge_calls cs (with_targets targets e)
    = with_targets targets (do_edge_calls cs e).
Proof.
  induction cs as [|c cs IH]; intros targets e; [reflexivity|].
  change (do_edge_calls (c :: cs) ?x)
    with (do_edge_calls cs (do_edge_call c x)).
  rewrite <- IH. f_equal. now destruct c.
Qed.

(** An edge writes its targets as they were given, joined by single spaces
    and with nothing escaped, whatever is then called on it.  So the edge
    built on the one target [a b] renders the very text of the edge built on
    the two targets [a] and [b]. *)
Theorem targets_are_not_escaped :
  forall (targets : string_or_array) (a b : string) (cs : list edge_call),
    (let e := do_edge_calls cs (new_NinjaEdgeBuilder targets) in
     rendered NinjaEdgeBuilder_write e
     = ("build " ++ Array_join " " (as_array targets) ++ ": " ++ edge_rule e)
       ++ clause_if_present " " (edge_sources e)
       ++ clause_if_present " | " (edge_dependencies e)
       ++ clause_if_present " || " (edge_orderDeps e)
       ++ String.concat ""
            (map override_line (Object_entries (edge_assigns e)))
       ++ LF
       ++ opt_text (edge_pool e) (fun p => "  pool = " ++ p ++ LF))
    /\ rendered NinjaEdgeBuilder_write
         (do_edge_calls cs (new_NinjaEdgeBuilder (One (a ++ " " ++ b))))
       = rendered NinjaEdgeBuilder_write
           (do_edge_calls cs (new_NinjaEdgeBuilder (Many [a; b]))).
Proof.
  intros targets a b cs. split.
  - cbv zeta. rewrite rendered_edge. unfold edge_text.
    destruct (do_edge_calls_fields cs (new_NinjaEdgeBuilder targets))
      as (Ht & _ & _).
    rewrite Ht. now destruct targets.
  - change (new_NinjaEdgeBuilder (One (a ++ " " ++ b)))
      with (with_targets [a ++ " " ++ b]
              (new_NinjaEdgeBuilder (Many [a; b]))).
    rewrite do_edge_calls_with_targets, !rendered_edge.
    destruct (do_edge_calls_fields cs (new_NinjaEdgeBuilder (Many [a; b])))
      as (Ht & _ & _).
    unfold edge_text.
    cbn [with_targets edge_targets edge_assigns edge_rule edge_sources
         edge_dependencies edge_orderDeps edge_pool].
    rewrite Ht. reflexivity.
Qed.

(** Every call of [assign] on the builder gives a line of its own, in call
    order, also when a name comes twice: unlike the overrides of an edge,
    the bindings of the builder are never overwritten. *)
Theorem bindings_never_overwrite :
  forall (version buildDir : option string) (cs : list ninja_call),
    let n := do_calls cs (new_NinjaBuilder version buildDir) in
    length (ninja_variables n) = length (registered_variables cs)
    /\ String.concat ""
         (map (rendered NinjaAssignBuilder_write) (ninja_variables n))
       = String.concat ""
           (map (fun nv => to_text (fst nv) ++ " = " ++ to_text (snd nv) ++ LF)
              (registered_variables cs)).
Proof.
  intros version buildDir cs n.
  destruct (do_calls_registers cs (new_NinjaBuilder version buildDir))
    as (_ & _ & _ & _ & _ & _ & Ha).
  fold n in Ha. cbn [new_NinjaBuilder ninja_variables map app] in Ha.
  rewrite <- Ha, length_map, map_map. split; [reflexivity|].
  apply (f_equal (String.concat "")). apply map_ext. intros v.
  apply rendered_assign.
Qed.

(** ** The shape of the serialized text *)

Lemma string_app_eq_nil (a b : string) : a ++ b = "" -> a = "" /\ b = "".
Proof. destruct a; cbn; [now split | discriminate]. Qed.

Lemma concat_map_eq_nil {C} (f : C -> string) (l : list C) :
  (forall c, f c <> "") -> String.concat "" (map f l) = "" -> l = [].
Proof.
  intros Hf H. destruct l as [|c l]; [reflexivity|].
  cbn [map] in H. change (String.concat "") with contents in H.
  rewrite contents_cons in H. apply string_app_eq_nil in H.
  now destruct (Hf c).
Qed.

Lemma rule_text_nonempty (r : NinjaRuleBuilder) :
  rendered NinjaRuleBuilder_write r <> "".
Proof. rewrite rendered_rule. unfold rule_text_spec. cbn. discriminate. Qed.

Lemma edge_text_nonempty (e : NinjaEdgeBuilder) :
  rendered NinjaEdgeBuilder_write e <> "".
Proof. rewrite rendered_edge. unfold edge_text. cbn. discriminate. Qed.

Lemma assign_text_nonempty (v : NinjaAssignBuilder) :
  rendered NinjaAssignBuilder_write v <> "".
Proof.
  rewrite rendered_assign. unfold assign_text.
  destruct (to_text (assign_name v)); cbn; discriminate.
Qed.

Lemma terminated_app (a b : string) :
  empty_or_terminated a -> empty_or_terminated b ->
  empty_or_terminated (a ++ b).
Proof.
  intros Ha [->|[p ->]].
  - now rewrite string_app_nil_r.
  - right. exists (a ++ p). now rewrite string_app_assoc.
Qed.

Lemma terminated_line (p : string) : empty_or_terminated (p ++ LF).
Proof. right. now exists p. Qed.

Lemma terminated_opt {A} (x : option A) (f : A -> string) :
  (forall a, empty_or_terminated (f a)) ->
  empty_or_terminated (opt_text x f).
Proof. intros H. destruct x; [apply H | now left]. Qed.

Lemma terminated_concat {C} (f : C -> string) (l : list C) :
  (forall c, empty_or_terminated (f c)) ->
  empty_or_terminated (String.concat "" (map f l)).
Proof.
  intros H. induction l as [|c l IH]; [now left|].
  cbn [map]. change (String.concat "") with contents.
  rewrite contents_cons. now apply terminated_app.
Qed.

Ltac line := rewrite <- ?string_app_assoc; apply terminated_line.

Lemma rule_text_terminated (r : NinjaRuleBuilder) :
  empty_or_terminated (rendered NinjaRuleBuilder_write r).
Proof.
  rewrite rendered_rule. unfold rule_text_spec.
  apply terminated_app; [line|].
  apply terminated_app; [line|].
  apply terminated_app; [apply terminated_opt; intros d; line|].
  apply terminated_app;
    [destruct (rule_doRestat r) as [[|]|]; (line || now left)|].
  apply terminated_app;
    [destruct (rule_isGenerator r) as [[|]|]; (line || now left)|].
  apply terminated_app; [apply terminated_opt; intros p; line|].
  apply terminated_opt. intros f. apply terminated_app; line.
Qed.

Lemma edge_text_terminated (e : NinjaEdgeBuilder) :
  empty_or_terminated (rendered NinjaEdgeBuilder_write e).
Proof.
  rewrite rendered_edge. unfold edge_text.
  rewrite <- !string_app_assoc.
  apply terminated_app; [apply terminated_line|].
  apply terminated_opt. intros p.
  rewrite <- string_app_assoc. apply terminated_line.
Qed.

Lemma assign_text_terminated (v : NinjaAssignBuilder) :
  empty_or_terminated (rendered NinjaAssignBuilder_write v).
Proof.
  rewrite rendered_assign. unfold assign_text.
  rewrite <- !string_app_assoc. apply terminated_line.
Qed.

(** [saveToStream] writes nothing exactly when nothing was declared: no
    header, version, build directory or default, and no rule, edge or
    binding.  Whatever it writes ends with a line feed, so that no line of
    the file is left open. *)
Theorem saved_text_empty_or_terminated :
  forall n : NinjaBuilder,
    (rendered NinjaBuilder_saveToStream n = "" <-> undeclared n)
    /\ (rendered NinjaBuilder_saveToStream n = ""
        \/ newline_terminated (rendered NinjaBuilder_saveToStream n)).
Proof.
  intros n. rewrite rendered_save. unfold save_text. split; [split|].
  - intros H.
    repeat (apply string_app_eq_nil in H;
            let Ha := fresh "Ha" in destruct H as [Ha H]).
    unfold undeclared.
    destruct (ninja_headerValue n) as [h|];
      [destruct h; discriminate|].
    destruct (ninja_version n); [discriminate|].
    destruct (ninja_buildDir n); [discriminate|].
    destruct (ninja_defaultRule n); [discriminate|].
    apply (concat_map_eq_nil _ _ rule_text_nonempty) in Ha2.
    apply (concat_map_eq_nil _ _ edge_text_nonempty) in Ha3.
    apply (concat_map_eq_nil _ _ assign_text_nonempty) in Ha4.
    repeat split; assumption.
  - intros (Hh & Hv & Hb & Hr & He & Ha & Hd).
    now rewrite Hh, Hv, Hb, Hr, He, Ha, Hd.
  - apply terminated_app; [apply terminated_opt; intros h; line|].
    apply terminated_app; [apply terminated_opt; intros v; line|].
    apply terminated_app; [apply terminated_opt; intros d; line|].
    apply terminated_app;
      [apply (terminated_concat _ _ rule_text_terminated)|].
    apply terminated_app;
      [apply (terminated_concat _ _ edge_text_terminated)|].
    apply terminated_app;
      [apply (terminated_concat _ _ assign_text_terminated)|].
    apply terminated_opt. intros d. line.
Qed.

End Builders.

(** * Concrete runs

    The number type is instantiated with the integers, printed in decimal.
    A script is run on a new builder and serialized on an empty stream, as
    [compareToString] does in the repository's test suite. *)

Local Notation "'saved' cs" :=
  (rendered (NinjaBuilder_saveToStream Z decimal)
     (do_calls Z decimal cs (new_NinjaBuilder Z None None)))
  (at level 10, cs at level 0).

Local Notation "'str' x" := (Str Z x) (at level 10, x at level 0).
Local Notation "'on_last_rule' c" := (Call_on_rule Z 0 c)
  (at level 10, c at level 0).
Local Notation "'on_last_edge' c" := (Call_on_edge Z 0 c)
  (at level 10, c at level 0).

(** ** The test suite *)

Example test_escape : escape "foo:bar$glo fiz.js" = "foo$:bar$$glo$ fiz.js".
Proof. reflexivity. Qed.

Example test_rule_command :
  saved [Call_rule Z "coffee";
         on_last_rule (Rule_run "coffee -cs < $in > $out")]
  = "rule coffee" ++ LF ++ "  command = coffee -cs < $in > $out" ++ LF.
Proof. reflexivity. Qed.

Example test_rule_description :
  saved [Call_rule Z "coffee";
         on_last_rule (Rule_description "Compile coffee file: $in")]
  = "rule coffee" ++ LF ++ "  command = " ++ LF
    ++ "  description = Compile coffee file: $in" ++ LF.
Proof. reflexivity. Qed.

Example test_rule_depfile :
  saved [Call_rule Z "coffee"; on_last_rule (Rule_depfile "$out.d")]
  = "rule coffee" ++ LF ++ "  command = " ++ LF
    ++ "  depfile = $out.d" ++ LF ++ "  deps = gcc" ++ LF.
Proof. reflexivity. Qed.

Example test_rule_restat :
  saved [Call_rule Z "coffee"; on_last_rule (Rule_restat true)]
  = "rule coffee" ++ LF ++ "  command = " ++ LF ++ "  restat = 1" ++ LF.
Proof. reflexivity. Qed.

Example test_rule_generator :
  saved [Call_rule Z "coffee"; on_last_rule (Rule_generator true)]
  = "rule coffee" ++ LF ++ "  command = " ++ LF ++ "  generator = 1" ++ LF.
Proof. reflexivity. Qed.

Example test_edge_phony :
  saved [Call_edge Z (One "simple_phony")]
  = "build simple_phony: phony" ++ LF.
Proof. reflexivity. Qed.

Example test_edge_multi_target :
  saved [Call_edge Z (Many ["phony1"; "phony2"])]
  = "build phony1 phony2: phony" ++ LF.
Proof. reflexivity. Qed.

Example test_edge_using :
  saved [Call_edge Z (One "baobab.js"); on_last_edge (Edge_using Z "coffee")]
  = "build baobab.js: coffee" ++ LF.
Proof. reflexivity. Qed.

Example test_edge_assign :
  saved [Call_edge Z (One "baobab.js");
         on_last_edge (Edge_assign Z (str "foobar") (Num Z 42%Z))]
  = "build baobab.js: phony" ++ LF ++ "  foobar = 42" ++ LF.
Proof. reflexivity. Qed.

Example test_edge_from :
  saved [Call_edge Z (One "dist");
         on_last_edge (Edge_from Z (One "debug"));
         on_last_edge (Edge_from Z (Many ["release"; "lint"]))]
  = "build dist: phony debug release lint" ++ LF.
Proof. reflexivity. Qed.

Example test_edge_need :
  saved [Call_edge Z (One "dist");
         on_last_edge (Edge_need Z (One "debug"));
         on_last_edge (Edge_need Z (Many ["release"; "lint"]))]
  = "build dist: phony | debug release lint" ++ LF.
Proof. reflexivity. Qed.

Example test_edge_after :
  saved [Call_edge Z (One "dist");
         on_last_edge (Edge_after Z (One "debug"));
         on_last_edge (Edge_after Z (Many ["release"; "lint"]))]
  = "build dist: phony || debug release lint" ++ LF.
Proof. reflexivity. Qed.

Example test_header :
  saved [Call_header Z ("foobar" ++ LF ++ "fizzbuzz")]
  = "foobar" ++ LF ++ "fizzbuzz" ++ LF ++ LF.
Proof. reflexivity. Qed.

Example test_assign :
  saved [Call_assign Z (str "some_var") (Num Z 42%Z)] = "some_var = 42" ++ LF.
Proof. reflexivity. Qed.

(** An interleaved script: the output groups the rules, then the edges, then
    the bindings, whatever the order of the calls. *)
Example interleaved_script :
  rendered (NinjaBuilder_saveToStream Z decimal)
    (do_calls Z decimal
       [Call_assign Z (str "cflags") (str "-O2");
        Call_edge Z (One "a.o");
        Call_byDefault Z "a.o";
        Call_rule Z "cc";
        Call_on_edge Z 0 (Edge_using Z "cc");
        Call_on_rule Z 0 (Rule_run "gcc -c $in");
        Call_header Z "# generated";
        Call_on_edge Z 0 (Edge_from Z (One "a.c"))]
       (new_NinjaBuilder Z (Some "1.3") (Some "out")))
  = "# generated" ++ LF ++ LF
    ++ "ninja_required_version = 1.3" ++ LF
    ++ "builddir=out" ++ LF
    ++ "rule cc" ++ LF ++ "  command = gcc -c $in" ++ LF
    ++ "build a.o: cc a.c" ++ LF
    ++ "cflags = -O2" ++ LF
    ++ "default a.o" ++ LF.
Proof. reflexivity. Qed.

(** ** Where the code departs from the text of the specification *)

(** C3, as stated, fails.  After [edge('t').from([])] the sources are present
    and empty: the code writes the separating space, where the render
    algorithm of the specification, which tests for a non-empty accumulator,
    writes nothing. *)
Lemma edge_text_spec_counterexample :
  let e :=
    NinjaEdgeBuilder_from Z (Many []) (new_NinjaEdgeBuilder Z (One "t")) in
  rendered (NinjaEdgeBuilder_write Z decimal) e = "build t: phony " ++ LF
  /\ edge_text_spec Z decimal e = "build t: phony" ++ LF
  /\ rendered (NinjaEdgeBuilder_write Z decimal) e
     <> edge_text_spec Z decimal e.
Proof.
  cbv zeta. split; [reflexivity|]. split; [reflexivity|]. discriminate.
Qed.

(** C6, as stated, fails.  After [edge('t').assign('b', 'y').assign(1, 'x')]
    the keys were first inserted in the order [b], [1], but the key [1] is an
    array index and is iterated first. *)
Lemma overrides_insertion_order_counterexample :
  let cs := [Edge_assign Z (str "b") (str "y");
             Edge_assign Z (Num Z 1%Z) (str "x")] in
  let e := do_edge_calls Z decimal cs (new_NinjaEdgeBuilder Z (One "t")) in
  first_occurrences (map fst (assign_args Z decimal cs)) = ["b"; "1"]
  /\ map fst (Object_entries (edge_assigns Z e)) = ["1"; "b"]
  /\ rendered (NinjaEdgeBuilder_write Z decimal) e
     = "build t: phony" ++ LF ++ "  1 = x" ++ LF ++ "  b = y" ++ LF
  /\ map fst (Object_entries (edge_assigns Z e))
     <> first_occurrences (map fst (assign_args Z decimal cs)).
Proof.
  cbv zeta. repeat split. discriminate.
Qed.



(** [escape_injective] at two spellings of one path. *)
Lemma escape_injective_witness :
  escape "a b:c" = escape ("a b" ++ ":c") /\ "a b:c" = "a b" ++ ":c".
Proof.
  split; [reflexivity|].
  apply (escape_injective "a b:c" ("a b" ++ ":c")). reflexivity.
Defined.

(** [edge_assign_binds] on a new edge, with the number [1] as the name: the
    override is there, and it replaces one assigned just before under the
    string ['1']. *)
Lemma edge_assign_binds_witness :
  let e := new_NinjaEdgeBuilder Z (One "t") in
  let name := Num Z 1%Z in
  not_proto (to_text Z decimal name) = true
  /\ (In (to_text Z decimal name, str "x")
        (Object_entries
           (edge_assigns Z (NinjaEdgeBuilder_assign Z decimal name (str "x") e)))
      /\ (forall name' value' : string_or_number Z,
            to_text Z decimal name' = to_text Z decimal name ->
            NinjaEdgeBuilder_assign Z decimal name (str "x")
              (NinjaEdgeBuilder_assign Z decimal name' value' e)
            = NinjaEdgeBuilder_assign Z decimal name (str "x") e)).
Proof.
  cbv zeta. split; [reflexivity|].
  apply (edge_assign_binds Z decimal (new_NinjaEdgeBuilder Z (One "t"))
           (Num Z 1%Z) (str "x")).
  reflexivity.
Defined.

(** [joined_escaped_names_injective] on a list whose first name holds a
    space. *)
Lemma joined_escaped_names_injective_witness :
  ["a b"; "c"] <> []
  /\ ["a" ++ " b"; "c"] <> []
  /\ Array_join " " (map escape ["a b"; "c"])
     = Array_join " " (map escape ["a" ++ " b"; "c"])
  /\ ["a b"; "c"] = ["a" ++ " b"; "c"].
Proof.
  split; [discriminate|]. split; [discriminate|]. split; [reflexivity|].
  apply (joined_escaped_names_injective ["a b"; "c"] ["a" ++ " b"; "c"]);
    [discriminate | discriminate | reflexivity].
Defined.

(** The amended C6 at [edge('t').assign('b', 'y').assign(1, 'x')]. *)
Lemma overrides_order_witness :
  let cs := [Edge_assign Z (str "b") (str "y");
             Edge_assign Z (Num Z 1%Z) (str "x")] in
  let e := do_edge_calls Z decimal cs (new_NinjaEdgeBuilder Z (One "t")) in
  let entries := Object_entries (edge_assigns Z e) in
  (forall name value,
     In (Edge_assign Z name value) cs ->
     to_text Z decimal name <> "__proto__")
  /\ NoDup (map fst entries)
  /\ (forall k v,
        In (k, v) entries
        <-> last_write k (assign_args Z decimal cs) = Some v)
  /\ StronglySorted (@index_lt (string_or_number Z))
       (filter (fun kv => is_index (fst kv)) entries)
  /\ map fst (filter (fun kv => negb (is_index (fst kv))) entries)
     = first_occurrences
         (filter (fun k => negb (is_index k))
            (map fst (assign_args Z decimal cs))).
Proof.
  cbv zeta.
  assert (H : forall name value,
            In (Edge_assign Z name value)
              [Edge_assign Z (str "b") (str "y");
               Edge_assign Z (Num Z 1%Z) (str "x")] ->
            to_text Z decimal name <> "__proto__").
  { intros name value [E|[E|[]]]; inversion E; subst; discriminate. }
  split; [exact H|].
  destruct (overrides_order Z decimal (One "t") _ H)
    as (Hnd & Hin & _ & Hsorted & Hnamed & _).
  repeat split; try assumption; apply Hin.
Defined.
